(** * Request-parameter serialization and premium-plan signing

    A shallow embedding of [src/serialize.ts] (google-maps-services-js)
    together with the properties of its serializers and of the premium-plan
    signer.

    Conventions of the embedding.
    - A JavaScript string is a [string]; one character stands for one UTF-16
      code unit, so the model covers the strings whose code units are below
      256.  [String.length] is the [.length] of the source.
    - A JavaScript number is a binary64 float ([PrimFloat.float]).
    - A JavaScript value is a tree ([value]) of data: primitives, arrays,
      dates and plain objects whose prototype is [Object.prototype].  There are
      no function values; the built-in prototypes are in their initial state.
      The one object that the source mutates, the parameter object of
      [serializer], lives in a store and is handled through its address.
    - A call that may throw returns a [result]; every exception the source can
      raise on the modelled values is a [TypeError]. *)

From Stdlib Require Import ZArith String Ascii List.
From Stdlib Require Import PrimFloat.
From stdpp Require Import gmap strings list sorting pretty.

Local Open Scope Z_scope.

(** ** Exceptions and results *)

(** [Unsupported] is no exception of the source.  It ends the one run that
    leaves the objects described here: a function of the table answers the
    inherited key ["__proto__"] with an object or with [null], and the
    assignment replaces the prototype of the copy (see [assign]). *)
Inductive exn : Set := TypeError | Unsupported.

Inductive result (A : Type) : Type :=
| Ok (a : A)
| Throw (e : exn).
Arguments Ok {A} a.
Arguments Throw {A} e.

Global Instance result_ret : MRet result := fun A a => Ok a.
Global Instance result_bind : MBind result := fun A B f m =>
  match m with
  | Ok a => f a
  | Throw e => Throw e
  end.
Global Instance result_fmap : FMap result := fun A B f m =>
  match m with
  | Ok a => Ok (f a)
  | Throw e => Throw e
  end.

(** ** Values *)

(** The float of an integer (exact up to 2^53 in absolute value). *)
Fixpoint pos2float (p : positive) : float :=
  match p with
  | xH => 1%float
  | xO q => (2 * pos2float q)%float
  | xI q => (2 * pos2float q + 1)%float
  end.

Definition Z2float (z : Z) : float :=
  match z with
  | Z0 => 0%float
  | Zpos p => pos2float p
  | Zneg p => (- pos2float p)%float
  end.

#[local] Set Warnings "-register-all,-inexact-float".

Inductive value : Type :=
| VUndefined
| VNull
| VBool (b : bool)
| VNum (x : float)
| VStr (s : string)
| VArr (xs : list value)
| VObj (props : list (string * value))   (* own enumerable properties, in key order *)
| VDate (tv : float).                    (* the time value: integral milliseconds or NaN *)

(** ** String primitives *)

(** The code unit of a character, and back. *)
Definition code (c : ascii) : Z := Z.of_N (N_of_ascii c).

Definition chr (n : Z) : ascii := ascii_of_N (Z.to_N n).

Definition in_range (lo hi : Z) (c : ascii) : bool :=
  (lo <=? code c) && (code c <=? hi).

Definition digit_value (c : ascii) : option Z :=
  if in_range 48 57 c then Some (code c - 48) else None.

Fixpoint digits_value (acc : Z) (s : string) : option Z :=
  match s with
  | EmptyString => Some acc
  | String c rest =>
      match digit_value c with
      | Some d => digits_value (10 * acc + d) rest
      | None => None
      end
  end.

(** [Array.prototype.join] on an array of strings. *)
Fixpoint join (sep : string) (l : list string) : string :=
  match l with
  | [] => ""
  | [x] => x
  | x :: rest => x +:+ sep +:+ join sep rest
  end.

(** [String.prototype.split] with a one-character separator. *)
Fixpoint split (sep : ascii) (s : string) : list string :=
  match s with
  | EmptyString => [EmptyString]
  | String c rest =>
      if Ascii.eqb c sep then EmptyString :: split sep rest
      else match split sep rest with
           | [] => [String c EmptyString]
           | p :: ps => String c p :: ps
           end
  end.

(** Splits at the first occurrence of a character. *)
Fixpoint cut_at (c : ascii) (s : string) : string * option string :=
  match s with
  | EmptyString => (EmptyString, None)
  | String x rest =>
      if Ascii.eqb x c then (EmptyString, Some rest)
      else let '(a, b) := cut_at c rest in (String x a, b)
  end.

(** [s.replace(/c/g, d)] for single characters [c] and [d]. *)
Fixpoint replace_all (c d : ascii) (s : string) : string :=
  match s with
  | EmptyString => EmptyString
  | String x rest => String (if Ascii.eqb x c then d else x) (replace_all c d rest)
  end.

(** The order of the default [Array.prototype.sort] on strings: code unit by
    code unit. *)
Definition string_le (a b : string) : Prop := String.leb a b = true.

Global Instance string_le_dec : RelDecision string_le :=
  fun a b => bool_eq_dec (String.leb a b) true.

(** ** Objects as property lists *)

Definition props := list (string * value).

Fixpoint lookup_prop (k : string) (o : props) : option value :=
  match o with
  | [] => None
  | (k', v) :: rest => if String.eqb k' k then Some v else lookup_prop k rest
  end.

Definition has_prop (k : string) (o : props) : bool :=
  match lookup_prop k o with Some _ => true | None => false end.

(** [o[k] = v]: an existing key keeps its place, a new key goes last. *)
Fixpoint set_prop (k : string) (v : value) (o : props) : props :=
  match o with
  | [] => [(k, v)]
  | (k', v') :: rest =>
      if String.eqb k' k then (k', v) :: rest else (k', v') :: set_prop k v rest
  end.

(** [delete o[k]]. *)
Fixpoint delete_prop (k : string) (o : props) : props :=
  match o with
  | [] => []
  | (k', v') :: rest =>
      if String.eqb k' k then delete_prop k rest else (k', v') :: delete_prop k rest
  end.

Definition index_keys (n : nat) : list string :=
  map (fun i : nat => pretty (N.of_nat i)) (seq 0 n).

(** [Object.keys(o)]. *)
Definition Object_keys (o : value) : result (list string) :=
  match o with
  | VUndefined | VNull => Throw TypeError
  | VBool _ | VNum _ | VDate _ => Ok []
  | VStr s => Ok (index_keys (String.length s))
  | VArr xs => Ok (index_keys (length xs))
  | VObj ps => Ok (map fst ps)
  end.

(** The array index that a property key denotes: a canonical decimal
    numeral. *)
Definition array_index (k : string) : option nat :=
  match k with
  | EmptyString => None
  | String "0" EmptyString => Some 0%nat
  | String "0" _ => None
  | _ => Z.to_nat <$> digits_value 0 k
  end.

Definition index_lookup {A} (k : string) (xs : list A) : option A :=
  match array_index k with
  | Some i => nth_error xs i
  | None => None
  end.

(** [o[k]] for a key that is an own key of [o] or that [o] does not inherit
    (the source reads no other key, except in [serializer], which reads
    through [fetch]): a missing property reads as [undefined]. *)
Definition get (o : value) (k : string) : value :=
  match o with
  | VObj ps => default VUndefined (lookup_prop k ps)
  | VArr xs =>
      if String.eqb k "length" then VNum (Z2float (Z.of_nat (length xs)))
      else default VUndefined (index_lookup k xs)
  | VStr s =>
      if String.eqb k "length" then VNum (Z2float (Z.of_nat (String.length s)))
      else match index_lookup k (list_ascii_of_string s) with
           | Some c => VStr (String c EmptyString)
           | None => VUndefined
           end
  | _ => VUndefined
  end.

(** The string-keyed members of the built-in prototypes (ECMAScript 2023
    with the legacy accessors; the editions differ in the methods of arrays,
    and none has a member that the source names). *)
Definition Object_prototype_names : list string :=
  ["constructor"; "__defineGetter__"; "__defineSetter__"; "hasOwnProperty";
   "__lookupGetter__"; "__lookupSetter__"; "isPrototypeOf";
   "propertyIsEnumerable"; "toString"; "valueOf"; "__proto__";
   "toLocaleString"].

Definition Array_prototype_names : list string :=
  ["length"; "constructor"; "at"; "concat"; "copyWithin"; "fill"; "find";
   "findIndex"; "findLast"; "findLastIndex"; "lastIndexOf"; "pop"; "push";
   "reverse"; "shift"; "unshift"; "slice"; "sort"; "splice"; "includes";
   "indexOf"; "join"; "keys"; "entries"; "values"; "forEach"; "filter";
   "flat"; "flatMap"; "map"; "every"; "some"; "reduce"; "reduceRight";
   "toLocaleString"; "toString"; "toReversed"; "toSorted"; "toSpliced";
   "with"].

Definition Date_prototype_names : list string :=
  ["constructor"; "toString"; "toDateString"; "toTimeString"; "toISOString";
   "toUTCString"; "toGMTString"; "getDate"; "setDate"; "getDay";
   "getFullYear"; "setFullYear"; "getHours"; "setHours"; "getMilliseconds";
   "setMilliseconds"; "getMinutes"; "setMinutes"; "getMonth"; "setMonth";
   "getSeconds"; "setSeconds"; "getTime"; "setTime"; "getTimezoneOffset";
   "getUTCDate"; "setUTCDate"; "getUTCDay"; "getUTCFullYear";
   "setUTCFullYear"; "getUTCHours"; "setUTCHours"; "getUTCMilliseconds";
   "setUTCMilliseconds"; "getUTCMinutes"; "setUTCMinutes"; "getUTCMonth";
   "setUTCMonth"; "getUTCSeconds"; "setUTCSeconds"; "valueOf"; "getYear";
   "setYear"; "toJSON"; "toLocaleString"; "toLocaleDateString";
   "toLocaleTimeString"].

Definition one_of_names (names : list string) (k : string) : bool :=
  existsb (String.eqb k) names.

(** The keys that a plain object inherits. *)
Definition inherited (k : string) : bool := one_of_names Object_prototype_names k.

(** [k in o] for a plain object given by its own properties. *)
Definition in_object (k : string) (o : props) : bool :=
  has_prop k o || inherited k.

(** [k in o]: throws on a primitive. *)
Definition op_in (k : string) (o : value) : result bool :=
  match o with
  | VObj ps => Ok (in_object k ps)
  | VArr xs =>
      Ok (String.eqb k "length"
          || match index_lookup k xs with Some _ => true | None => false end
          || one_of_names Array_prototype_names k || inherited k)
  | VDate _ => Ok (one_of_names Date_prototype_names k || inherited k)
  | VUndefined | VNull | VBool _ | VNum _ | VStr _ => Throw TypeError
  end.

(** [o.k] for a member access that the source performs unguarded. *)
Definition member (o : value) (k : string) : result value :=
  match o with
  | VUndefined | VNull => Throw TypeError
  | _ => Ok (get o k)
  end.

(** ** The surrounding platform

    The primitives of the JavaScript runtime and of the rest of the package
    that the serializers call and that are not part of [serialize.ts]. *)

Record URL : Type := mkURL {
  protocol : string;
  host : string;
  pathname : string;
  search : string;
  hash : string;
}.

Class Platform : Type := {
  (** [Number.prototype.toString()] in radix 10 *)
  NumberToString : float -> string;
  (** the [Number(s)] conversion of a string *)
  StringToNumber : string -> float;
  (** [Date.prototype.toString()] of a time value *)
  DateToString : float -> string;
  (** [encodePath] of [./util], applied to the list of literals *)
  encodePath : list value -> string;
  (** [new URL(s)]: [None] when the constructor throws its [TypeError] *)
  URL_parse : string -> option URL;
}.

Section Serializers.
Context `{Platform}.

(** ** Coercions *)

Definition is_nullish (v : value) : bool :=
  match v with VUndefined | VNull => true | _ => false end.

(** [String(v)], and the string that [+] and [join] make of [v].  An object
    is converted through its [toString]: an array joins its elements, a plain
    object answers ["[object Object]"] unless it has a [toString] of its own,
    which is no function and makes the conversion throw ([valueOf] gives no
    primitive either). *)
Fixpoint ToString (v : value) : result string :=
  match v with
  | VUndefined => Ok "undefined"
  | VNull => Ok "null"
  | VBool true => Ok "true"
  | VBool false => Ok "false"
  | VNum x => Ok (NumberToString x)
  | VStr s => Ok s
  | VArr xs =>
      strs ← mapM (fun x => if is_nullish x then Ok "" else ToString x) xs;
      Ok (join "," strs)
  | VObj ps => if has_prop "toString" ps then Throw TypeError else Ok "[object Object]"
  | VDate tv => Ok (DateToString tv)
  end.

(** [Number(v)]: an array and a plain object go through their string, a date
    is its time value. *)
Definition ToNumber (v : value) : result float :=
  match v with
  | VUndefined => Ok nan
  | VNull => Ok 0%float
  | VBool true => Ok 1%float
  | VBool false => Ok 0%float
  | VNum x => Ok x
  | VStr s => Ok (StringToNumber s)
  | VArr _ | VObj _ => s ← ToString v; Ok (StringToNumber s)
  | VDate tv => Ok tv
  end.

(** [x.toString()]: a method call, so it throws on [null] and [undefined],
    and on an object whose own [toString] is no function. *)
Definition method_toString (x : value) : result string :=
  if is_nullish x then Throw TypeError else ToString x.

(** ** Coordinates *)

Definition separator : string := "|".

(** [Array.isArray(o) && o.length === 2] *)
Definition is_pair (o : value) : bool :=
  match o with
  | VArr [_; _] => true
  | _ => false
  end.

Definition elements (o : value) : list value :=
  match o with VArr xs => xs | _ => [] end.

(** [a in o && b in o] *)
Definition has_both (a b : string) (o : value) : result bool :=
  ha ← op_in a o;
  if ha : bool then op_in b o else Ok false.

Definition latLngToString (o : value) : result string :=
  match o with
  | VStr s => Ok s
  | _ =>
      pair ←
        (if is_pair o then Ok o
         else
           b1 ← has_both "lat" "lng" o;
           if b1 : bool then Ok (VArr [get o "lat"; get o "lng"])
           else
             b2 ← has_both "latitude" "longitude" o;
             if b2 : bool then Ok (VArr [get o "latitude"; get o "longitude"])
             else Throw TypeError);
      strs ← mapM method_toString (elements pair);
      Ok (join "," strs)
  end.

Definition objectToString (o : value) : result string :=
  match o with
  | VStr s => Ok s
  | _ =>
      keys ← Object_keys o;
      let keys := merge_sort string_le keys in
      strs ← mapM (fun k => s ← ToString (get o k); Ok (k +:+ ":" +:+ s)) keys;
      Ok (join separator strs)
  end.

Definition latLngBoundsToString (latLngBounds : value) : result string :=
  match latLngBounds with
  | VStr s => Ok s
  | _ =>
      sw ← member latLngBounds "southwest";
      a ← latLngToString sw;
      ne ← member latLngBounds "northeast";
      b ← latLngToString ne;
      Ok (a +:+ separator +:+ b)
  end.

(** [parts[i]] *)
Definition at_index (parts : list value) (i : nat) : value :=
  nth i parts VUndefined.

Definition toLatLngLiteral (o : value) : result value :=
  match o with
  | VStr s =>
      let parts := map (fun p => VNum (StringToNumber p)) (split "," s) in
      Ok (VObj [("lat", at_index parts 0); ("lng", at_index parts 1)])
  | _ =>
      if is_pair o then
        parts ← mapM (fun x => n ← ToNumber x; Ok (VNum n)) (elements o);
        Ok (VObj [("lat", at_index parts 0); ("lng", at_index parts 1)])
      else
        b1 ← has_both "lat" "lng" o;
        if b1 : bool then Ok o
        else
          b2 ← has_both "latitude" "longitude" o;
          if b2 : bool then Ok (VObj [("lat", get o "latitude"); ("lng", get o "longitude")])
          else Throw TypeError
  end.

Definition latLngArrayToStringMaybeEncoded (o : value) : result string :=
  match o with
  | VStr s => Ok s
  | VArr xs =>
      strs ← mapM latLngToString xs;
      let concatenated := join separator strs in
      lits ← mapM toLatLngLiteral xs;
      let encoded := "enc:" +:+ encodePath lits in
      if (String.length encoded <? String.length concatenated)%nat then Ok encoded
      else Ok concatenated
  | _ => Throw TypeError   (* no [map] method *)
  end.

(** ** Timestamps *)

Definition is_now (o : value) : bool :=
  match o with VStr s => String.eqb s "now" | _ => false end.

(** [Number(o)] of a date is its time value. *)
Definition toTimestamp (o : value) : value :=
  if is_now o then o
  else match o with
       | VDate tv => VNum (tv / 1000)%float
       | _ => o
       end.

End Serializers.

(** ** Bytes, UTF-8 and base64

    A byte is a [Z] in [0, 256). *)

(** The UTF-8 bytes of a string (code units below 256 take one or two bytes). *)
Definition utf8_char (c : ascii) : list Z :=
  let n := code c in
  if n <? 128 then [n]
  else [Z.lor 192 (Z.shiftr n 6); Z.lor 128 (Z.land n 63)].

Definition utf8_encode (s : string) : list Z :=
  flat_map utf8_char (list_ascii_of_string s).

Definition b64_alphabet : list ascii :=
  list_ascii_of_string
    "ABCDEFGHIJKLMNOPQRSTUVWXYZabcdefghijklmnopqrstuvwxyz0123456789+/".

Definition b64_char (i : Z) : ascii := nth (Z.to_nat i) b64_alphabet "A"%char.

(** The [k]-th 6-bit group (from the right) of a 24-bit group. *)
Definition sextet (k : Z) (n : Z) : Z := Z.land (Z.shiftr n (6 * k)) 63.

Definition group24 (a b c : Z) : Z := a * 65536 + b * 256 + c.

(** [buf.toString("base64")] and [digest("base64")]: RFC 4648 with padding. *)
Fixpoint base64_encode (bs : list Z) : string :=
  match bs with
  | [] => ""
  | [a] =>
      let n := group24 a 0 0 in
      String (b64_char (sextet 3 n)) (String (b64_char (sextet 2 n)) "==")
  | [a; b] =>
      let n := group24 a b 0 in
      String (b64_char (sextet 3 n)) (String (b64_char (sextet 2 n))
        (String (b64_char (sextet 1 n)) "="))
  | a :: b :: c :: rest =>
      let n := group24 a b c in
      String (b64_char (sextet 3 n)) (String (b64_char (sextet 2 n))
        (String (b64_char (sextet 1 n)) (String (b64_char (sextet 0 n))
          (base64_encode rest))))
  end.

(** The decoding table of the runtime: both the standard and the URL-safe
    alphabet are legal. *)
Definition unbase64 (c : ascii) : option Z :=
  let n := code c in
  if (65 <=? n) && (n <=? 90) then Some (n - 65)
  else if (97 <=? n) && (n <=? 122) then Some (n - 71)
  else if (48 <=? n) && (n <=? 57) then Some (n + 4)
  else if (n =? 43) || (n =? 45) then Some 62
  else if (n =? 47) || (n =? 95) then Some 63
  else None.

(** The legal characters in front of the first ["="]; any other character is
    skipped. *)
Fixpoint b64_sextets (s : string) : list Z :=
  match s with
  | EmptyString => []
  | String c rest =>
      if Ascii.eqb c "="%char then []
      else match unbase64 c with
           | Some v => v :: b64_sextets rest
           | None => b64_sextets rest
           end
  end.

Fixpoint b64_bytes (l : list Z) : list Z :=
  match l with
  | a :: b :: c :: d :: rest =>
      Z.lor (Z.shiftl a 2) (Z.shiftr b 4)
      :: Z.lor (Z.shiftl (Z.land b 15) 4) (Z.shiftr c 2)
      :: Z.lor (Z.shiftl (Z.land c 3) 6) d
      :: b64_bytes rest
  | [a; b; c] =>
      [Z.lor (Z.shiftl a 2) (Z.shiftr b 4);
       Z.lor (Z.shiftl (Z.land b 15) 4) (Z.shiftr c 2)]
  | [a; b] => [Z.lor (Z.shiftl a 2) (Z.shiftr b 4)]
  | _ => []
  end.

(** [Buffer.from(s, "base64")]: total, it never throws. *)
Definition base64_decode (s : string) : list Z := b64_bytes (b64_sextets s).

(** ** SHA-1 and HMAC (FIPS 180-4, RFC 2104)

    [createHmac("sha1", key).update(message).digest()]. *)

Definition w32 (x : Z) : Z := x mod 2 ^ 32.

Definition rotl (n x : Z) : Z := w32 (Z.lor (Z.shiftl x n) (Z.shiftr x (32 - n))).

Definition not32 (x : Z) : Z := 2 ^ 32 - 1 - x.

Definition sha1_f (t : nat) (b c d : Z) : Z :=
  if (t <? 20)%nat then Z.lor (Z.land b c) (Z.land (not32 b) d)
  else if (t <? 40)%nat then Z.lxor (Z.lxor b c) d
  else if (t <? 60)%nat then Z.lor (Z.lor (Z.land b c) (Z.land b d)) (Z.land c d)
  else Z.lxor (Z.lxor b c) d.

Definition sha1_k (t : nat) : Z :=
  if (t <? 20)%nat then 0x5A827999
  else if (t <? 40)%nat then 0x6ED9EBA1
  else if (t <? 60)%nat then 0x8F1BBCDC
  else 0xCA62C1D6.

(** Big-endian bytes of a word of [n] bytes. *)
Fixpoint be_bytes (n : nat) (x : Z) : list Z :=
  match n with
  | O => []
  | S m => Z.land (Z.shiftr x (8 * Z.of_nat m)) 255 :: be_bytes m x
  end.

Definition sha1_pad (msg : list Z) : list Z :=
  let len := Z.of_nat (length msg) in
  msg ++ [128] ++ repeat 0 (Z.to_nat ((55 - len) mod 64)) ++ be_bytes 8 (8 * len).

Fixpoint be_words (bs : list Z) : list Z :=
  match bs with
  | a :: b :: c :: d :: rest => (((a * 256 + b) * 256 + c) * 256 + d) :: be_words rest
  | _ => []
  end.

(** The message schedule, most recent word first. *)
Fixpoint sha1_extend (n : nat) (rev_w : list Z) : list Z :=
  match n with
  | O => rev_w
  | S m =>
      let w := rotl 1 (Z.lxor (Z.lxor (nth 2 rev_w 0) (nth 7 rev_w 0))
                              (Z.lxor (nth 13 rev_w 0) (nth 15 rev_w 0))) in
      sha1_extend m (w :: rev_w)
  end.

Definition sha1_schedule (block : list Z) : list Z :=
  rev (sha1_extend 64 (rev block)).

Definition sha1_state : Type := Z * Z * Z * Z * Z.

Definition sha1_round (st : sha1_state) (tw : nat * Z) : sha1_state :=
  let '(a, b, c, d, e) := st in
  let '(t, w) := tw in
  let temp := w32 (rotl 5 a + sha1_f t b c d + e + sha1_k t + w) in
  (temp, a, rotl 30 b, c, d).

Definition sha1_block (h : sha1_state) (block : list Z) : sha1_state :=
  let ws := sha1_schedule block in
  let '(a, b, c, d, e) := fold_left sha1_round (combine (seq 0 80) ws) h in
  let '(h0, h1, h2, h3, h4) := h in
  (w32 (h0 + a), w32 (h1 + b), w32 (h2 + c), w32 (h3 + d), w32 (h4 + e)).

Fixpoint chunks16 (fuel : nat) (ws : list Z) : list (list Z) :=
  match fuel, ws with
  | S f, _ :: _ => firstn 16 ws :: chunks16 f (skipn 16 ws)
  | _, _ => []
  end.

Definition sha1_init : sha1_state :=
  (0x67452301, 0xEFCDAB89, 0x98BADCFE, 0x10325476, 0xC3D2E1F0).

Definition sha1 (msg : list Z) : list Z :=
  let ws := be_words (sha1_pad msg) in
  let '(h0, h1, h2, h3, h4) :=
    fold_left sha1_block (chunks16 (length ws) ws) sha1_init in
  be_bytes 4 h0 ++ be_bytes 4 h1 ++ be_bytes 4 h2 ++ be_bytes 4 h3 ++ be_bytes 4 h4.

Definition hmac_key (key : list Z) : list Z :=
  let k := if (64 <? length key)%nat then sha1 key else key in
  k ++ repeat 0 (64 - length k)%nat.

Definition hmac_sha1 (key msg : list Z) : list Z :=
  let k := hmac_key key in
  sha1 (map (Z.lxor 0x5c) k ++ sha1 (map (Z.lxor 0x36) k ++ msg)).

(** ** The query-string builder

    [stringify] of the [query-string] package (version 7, the dependency in
    [package.json]), for the options that select how arrays are rendered and
    whether the keys are sorted; [encode] and [strict] are at their
    defaults. *)

Definition hex_digit (n : Z) : ascii :=
  nth (Z.to_nat n) (list_ascii_of_string "0123456789ABCDEF") "0"%char.

Definition percent (b : Z) : string :=
  String "%" (String (hex_digit (b / 16)) (String (hex_digit (b mod 16)) "")).

Definition is_alnum (c : ascii) : bool :=
  in_range 65 90 c || in_range 97 122 c || in_range 48 57 c.

Definition one_of (s : string) (c : ascii) : bool :=
  existsb (Ascii.eqb c) (list_ascii_of_string s).

Definition uri_unreserved (c : ascii) : bool :=
  is_alnum c || one_of "-_.!~*'()" c.

Fixpoint encodeURIComponent (s : string) : string :=
  match s with
  | EmptyString => EmptyString
  | String c rest =>
      (if uri_unreserved c then String c EmptyString
       else join "" (map percent (utf8_char c)))
      +:+ encodeURIComponent rest
  end.

(** [.replace(/[!'()*]/g, x => "%" + hex(x))] *)
Fixpoint strict_replace (s : string) : string :=
  match s with
  | EmptyString => EmptyString
  | String c rest =>
      (if one_of "!'()*" c then percent (code c) else String c EmptyString)
      +:+ strict_replace rest
  end.

Definition strictUriEncode (s : string) : string :=
  strict_replace (encodeURIComponent s).

Inductive ArrayFormat : Set := AF_none | AF_separator.

(** [sort] is [false] for the option [sort: false], which keeps the keys in
    the order of the object, and [true] otherwise (a comparison function as
    [sort] is not covered). *)
Record qsOptions : Set := mkOptions {
  arrayFormat : ArrayFormat;
  arrayFormatSeparator : string;
  sort : bool;
}.

(** [xs.reduce(f, acc)] for a reducer that may throw. *)
Fixpoint reduce {A B} (f : A -> B -> result A) (xs : list B) (acc : A) : result A :=
  match xs with
  | [] => Ok acc
  | x :: rest => acc' ← f acc x; reduce f rest acc'
  end.

Definition nonempty (s : string) : bool :=
  negb (Nat.eqb (String.length s) 0).

Section Signer.
Context `{Platform}.

(** [encode(value, options)]: the value is converted to a string first; a
    key is a string already and is encoded with [strictUriEncode]. *)
Definition qs_encode (v : value) : result string :=
  s ← ToString v; Ok (strictUriEncode s).

(** The reducer that [encoderForArrayFormat] returns for a key; [acc] is its
    accumulator. *)
Definition qs_formatter (options : qsOptions) (key : string)
    (acc : list string) (v : value) : result (list string) :=
  match arrayFormat options with
  | AF_separator =>
      match v with
      | VUndefined => Ok acc
      | _ =>
          let v := match v with VNull => VStr "" | _ => v end in
          e ← qs_encode v;
          match acc with
          | [] => Ok [strictUriEncode key +:+ "=" +:+ e]
          | _ => Ok [join "," acc +:+ arrayFormatSeparator options +:+ e]
          end
      end
  | AF_none =>
      match v with
      | VUndefined => Ok acc
      | VNull => Ok (acc ++ [strictUriEncode key])
      | _ => e ← qs_encode v; Ok (acc ++ [strictUriEncode key +:+ "=" +:+ e])
      end
  end.

Definition qs_field (options : qsOptions) (object : props) (key : string)
    : result string :=
  match get (VObj object) key with
  | VUndefined => Ok ""
  | VNull => Ok (strictUriEncode key)
  | VArr xs => parts ← reduce (qs_formatter options key) xs []; Ok (join "&" parts)
  | v => e ← qs_encode v; Ok (strictUriEncode key +:+ "=" +:+ e)
  end.

(** [qs(object, options)]: the separator has to be one character; the keys
    are sorted unless the options say otherwise, and a key that renders as the
    empty string is left out. *)
Definition qs (object : props) (options : qsOptions) : result string :=
  if negb (Nat.eqb (String.length (arrayFormatSeparator options)) 1) then Throw TypeError
  else
    let keys := map fst object in
    let keys := if sort options then merge_sort string_le keys else keys in
    fields ← mapM (qs_field options object) keys;
    Ok (join "&" (filter (fun x => nonempty x = true) fields)).

(** ** The premium-plan signer *)

Definition createPremiumPlanSignature (unsignedUrl clientSecret : string) : result string :=
  match URL_parse unsignedUrl with
  | None => Throw TypeError
  | Some fullUrl =>
      let pathAndQuery := pathname fullUrl +:+ search fullUrl in
      let unsafeClientSecret :=
        replace_all "_" "/" (replace_all "-" "+" clientSecret) in
      let decodedSecret := base64_decode unsafeClientSecret in
      let unsafeSignature :=
        base64_encode (hmac_sha1 decodedSecret (utf8_encode pathAndQuery)) in
      Ok (replace_all "/" "_" (replace_all "+" "-" unsafeSignature))
  end.

(** ** The store

    [serializer] copies the caller's object and edits the copy; objects are
    therefore addressed, and a call runs on a store. *)

Definition loc := positive.

Definition M (A : Type) : Type := gmap loc props -> result A * gmap loc props.

Global Instance M_ret : MRet M := fun A a h => (Ok a, h).

Global Instance M_bind : MBind M := fun A B f m h =>
  match m h with
  | (Ok a, h') => f a h'
  | (Throw e, h') => (Throw e, h')
  end.

Definition lift {A} (r : result A) : M A := fun h => (r, h).

Definition read (l : loc) : M props :=
  fun h => match h !! l with
           | Some o => (Ok o, h)
           | None => (Throw TypeError, h)
           end.

Definition write (l : loc) (o : props) : M unit :=
  fun h => (Ok tt, <[l := o]> h).

(** A new object with the given properties. *)
Definition alloc (o : props) : M loc :=
  fun h => let l := fresh (dom h) in (Ok l, <[l := o]> h).

Fixpoint forEach {A} (l : list A) (f : A -> M unit) : M unit :=
  match l with
  | [] => mret tt
  | x :: rest => f x;; forEach rest f
  end.

(** What [serializedParams[key]] hands to a function of the table: a value
    of the object, or, for a key that the object only inherits, the member of
    [Object.prototype] of that name (a built-in function, or the prototype
    itself for ["__proto__"]), which is no [value]. *)
Inductive argument : Type :=
| Own (v : value)
| Inherited (name : string).

(** The table in the order of [Object.keys]; its functions return data. *)
Definition serializerFunction : Type := argument -> result value.
Definition serializerFormat : Type := list (string * serializerFunction).

(** [o[key]] for a key with [key in o]. *)
Definition fetch (key : string) (o : props) : argument :=
  match lookup_prop key o with
  | Some v => Own v
  | None => if inherited key then Inherited key else Own VUndefined
  end.

(** The values that the setter of ["__proto__"] accepts as a prototype. *)
Definition is_prototype (v : value) : bool :=
  match v with VNull | VArr _ | VObj _ | VDate _ => true | _ => false end.

(** [o[key] = v] for a key with [key in o].  An own property is overwritten;
    an inherited method is shadowed by a new own property; the inherited
    ["__proto__"] is an accessor, whose setter ignores a primitive and
    replaces the prototype of [o] by an object or by [null].  After that [o]
    is no plain object any more, and the run ends with [Unsupported]. *)
Definition assign (key : string) (v : value) (o : props) : result props :=
  if has_prop key o then Ok (set_prop key v o)
  else if String.eqb key "__proto__" then
    if is_prototype v then Throw Unsupported else Ok o
  else Ok (set_prop key v o).

Fixpoint format_lookup (key : string) (format : serializerFormat) : option serializerFunction :=
  match format with
  | [] => None
  | (k, f) :: rest => if String.eqb k key then Some f else format_lookup key rest
  end.

Definition createPremiumPlanQueryString
    (serializedParams : loc) (queryStringOptions : qsOptions) (baseUrl : string) : M string :=
  sp ← read serializedParams;
  write serializedParams (set_prop "client" (get (VObj sp) "client_id") sp);;
  sp ← read serializedParams;
  let clientSecret := get (VObj sp) "client_secret" in
  write serializedParams (delete_prop "client_id" sp);;
  sp ← read serializedParams;
  write serializedParams (delete_prop "client_secret" sp);;
  sp ← read serializedParams;
  partialQueryString ← lift (qs sp queryStringOptions);
  let unsignedUrl := baseUrl +:+ "?" +:+ partialQueryString in
  signature ← lift (match clientSecret with
                     | VStr s => createPremiumPlanSignature unsignedUrl s
                     | _ => Throw TypeError   (* no [replace] method *)
                     end);
  mret (partialQueryString +:+ "&signature=" +:+ signature).

(** The default value of the parameter [queryStringOptions]. *)
Definition default_options : qsOptions :=
  {| arrayFormat := AF_separator; arrayFormatSeparator := separator; sort := true |}.

(** [params] is the address of the caller's object; the spread
    [{ ...params }] allocates the copy. *)
Definition serializer (format : serializerFormat) (baseUrl : string)
    (queryStringOptions : qsOptions) : loc -> M string :=
  fun params =>
    p ← read params;
    serializedParams ← alloc p;
    forEach (map fst format) (fun key =>
      sp ← read serializedParams;
      if in_object key sp then
        match format_lookup key format with
        | Some f =>
            v ← lift (f (fetch key sp));
            sp ← lift (assign key v sp);
            write serializedParams sp
        | None => lift (Throw TypeError)
        end
      else mret tt);;
    sp ← read serializedParams;
    if in_object "client_id" sp && in_object "client_secret" sp then
      createPremiumPlanQueryString serializedParams queryStringOptions baseUrl
    else lift (qs sp queryStringOptions).

End Signer.

(** ** A platform for running examples

    Executable stand-ins for the runtime primitives.  They agree with the
    runtime on the inputs used below: numbers with at most fifteen significant
    digits in plain decimal notation, URLs of the form
    [scheme://host/path?query#fragment] whose path and query need no
    normalisation, and the polyline algorithm for [encodePath].
    [DateToString] is right for the invalid date only. *)

Module Sample.

(** The largest integer below [2^53] whose float is at most [x] (for [0 <= x]). *)
Fixpoint floor_bits (n : nat) (acc : Z) (x : float) : Z :=
  match n with
  | O => acc
  | S m =>
      let acc' := acc + 2 ^ Z.of_nat m in
      floor_bits m (if PrimFloat.leb (Z2float acc') x then acc' else acc) x
  end.

Definition float_floor (x : float) : Z :=
  if PrimFloat.leb 0 x then floor_bits 53 0 x
  else
    let z := floor_bits 53 0 (- x)%float in
    if PrimFloat.eqb (Z2float z) (- x)%float then - z else - z - 1.

(** [Math.round] *)
Definition float_round (x : float) : Z := float_floor (x + 0.5)%float.

Definition unsigned_decimal (s : string) : float :=
  match split "." s with
  | [i] =>
      match digits_value 0 i with
      | Some n => if nonempty i then Z2float n else nan
      | None => nan
      end
  | [i; f] =>
      match digits_value 0 (i +:+ f) with
      | Some n =>
          if nonempty (i +:+ f)
          then (Z2float n / Z2float (10 ^ Z.of_nat (String.length f)))%float
          else nan
      | None => nan
      end
  | _ => nan
  end.

Definition StringToNumber_dec (s : string) : float :=
  match s with
  | EmptyString => 0%float
  | String "-" rest => (- unsigned_decimal rest)%float
  | String "+" rest => unsigned_decimal rest
  | _ => unsigned_decimal s
  end.

Definition pad_left (n : nat) (s : string) : string :=
  string_of_list_ascii (repeat "0"%char (n - String.length s)) +:+ s.

Definition decimal_string (n : Z) (k : nat) : string :=
  let ds := pad_left (S k) (pretty n) in
  let cut := (String.length ds - k)%nat in
  if Nat.eqb k 0 then ds
  else substring 0 cut ds +:+ "." +:+ substring cut k ds.

(** The first number of fractional digits that reads back as [x] (["?"] when
    there is none within the fuel). *)
Fixpoint shortest_decimal (fuel : nat) (k : nat) (x : float) : string :=
  match fuel with
  | O => "?"
  | S f =>
      let n := float_round (x * Z2float (10 ^ Z.of_nat k))%float in
      let s := decimal_string n k in
      if PrimFloat.eqb (unsigned_decimal s) x then s
      else shortest_decimal f (S k) x
  end.

Definition NumberToString_dec (x : float) : string :=
  if is_nan x then "NaN"
  else if PrimFloat.eqb x 0 then "0"
  else if PrimFloat.eqb x infinity then "Infinity"
  else if PrimFloat.eqb x neg_infinity then "-Infinity"
  else if PrimFloat.ltb x 0 then "-" +:+ shortest_decimal 18 0 (- x)%float
  else shortest_decimal 18 0 x.

(** The polyline codec. *)
Fixpoint encodePart_loop (fuel : nat) (part : Z) : string :=
  match fuel with
  | O => ""
  | S f =>
      if 32 <=? part
      then String (chr (Z.lor 32 (Z.land part 31) + 63)) (encodePart_loop f (Z.shiftr part 5))
      else String (chr (part + 63)) ""
  end.

Definition encodePart (part : Z) : string :=
  encodePart_loop 8 (if part <? 0 then Z.lnot (Z.shiftl part 1) else Z.shiftl part 1).

Section Polyline.
Context (toNumber : value -> float).

Fixpoint encodePath_from (start : Z * Z) (path : list value) : string :=
  match path with
  | [] => ""
  | p :: rest =>
      let e := (float_round (toNumber (get p "lat") * 100000)%float,
                float_round (toNumber (get p "lng") * 100000)%float) in
      encodePart (fst e - fst start) +:+ encodePart (snd e - snd start)
      +:+ encodePath_from e rest
  end.

End Polyline.

Definition number_of (v : value) : float :=
  match v with
  | VNum x => x
  | VStr s => StringToNumber_dec s
  | _ => nan
  end.

Definition URL_simple (s : string) : option URL :=
  match cut_at ":" s with
  | (scheme, Some (String "/" (String "/" rest))) =>
      let '(before_hash, fragment) := cut_at "#" rest in
      let '(before_query, query) := cut_at "?" before_hash in
      let '(authority, path) := cut_at "/" before_query in
      if nonempty scheme && nonempty authority then
        Some {| protocol := scheme +:+ ":";
                host := authority;
                pathname := "/" +:+ default "" path;
                search := match query with
                          | Some q => if nonempty q then "?" +:+ q else ""
                          | None => ""
                          end;
                hash := match fragment with
                        | Some f => if nonempty f then "#" +:+ f else ""
                        | None => ""
                        end |}
      else None
  | _ => None
  end.

Global Instance platform : Platform := {|
  NumberToString := NumberToString_dec;
  StringToNumber := StringToNumber_dec;
  DateToString := fun _ => "Invalid Date";
  encodePath := encodePath_from number_of (0, 0);
  URL_parse := URL_simple;
|}.

End Sample.

(** ** Vocabulary of the specification *)

(** *** Shapes of a coordinate *)

Definition matches_shape (o : value) : bool :=
  match o with
  | VStr _ => true
  | VArr [_; _] => true
  | VObj ps =>
      (has_prop "lat" ps && has_prop "lng" ps)
      || (has_prop "latitude" ps && has_prop "longitude" ps)
  | _ => false
  end.

(** The two components of a coordinate that is not a string. *)
Definition components (o : value) : list value :=
  match o with
  | VArr xs => xs
  | VObj ps =>
      if has_prop "lat" ps && has_prop "lng" ps then [get o "lat"; get o "lng"]
      else [get o "latitude"; get o "longitude"]
  | _ => []
  end.

(** *** Values that convert *)

(** The values that have a string: every value except a plain object with a
    [toString] of its own and an array that holds one (at any depth, [null]
    and [undefined] elements apart, which [join] renders as the empty
    string). *)
Fixpoint convertible (v : value) : bool :=
  match v with
  | VObj ps => negb (has_prop "toString" ps)
  | VArr xs => forallb (fun x => is_nullish x || convertible x) xs
  | _ => true
  end.

(** The values on which [x.toString()] returns. *)
Definition printable (v : value) : bool :=
  negb (is_nullish v) && convertible v.

(** *** Entries of an object *)

Section Entries.
Context `{Platform}.

(** ["<key>:<value>"] *)
Definition render_entry (e : string * value) : result string :=
  s ← ToString (snd e); Ok (fst e +:+ ":" +:+ s).

End Entries.

(** *** URL-safe base64 *)

Fixpoint map_string (f : ascii -> ascii) (s : string) : string :=
  match s with
  | EmptyString => EmptyString
  | String c rest => String (f c) (map_string f rest)
  end.

(** Standard to URL-safe alphabet: ["+"] to ["-"], ["/"] to ["_"]. *)
Definition to_web_safe : string -> string :=
  map_string (fun c => if Ascii.eqb c "+" then "-"%char
                       else if Ascii.eqb c "/" then "_"%char else c).

(** URL-safe to standard alphabet: ["-"] to ["+"], ["_"] to ["/"]. *)
Definition from_web_safe : string -> string :=
  map_string (fun c => if Ascii.eqb c "-" then "+"%char
                       else if Ascii.eqb c "_" then "/"%char else c).

(** The value of a character of the standard alphabet. *)
Definition std_sextet (c : ascii) : option Z :=
  if Ascii.eqb c "-" || Ascii.eqb c "_" then None else unbase64 c.

Definition std_group (a b c d : ascii) : option (list Z) :=
  va ← std_sextet a; vb ← std_sextet b; vc ← std_sextet c; vd ← std_sextet d;
  Some (be_bytes 3 (((va * 64 + vb) * 64 + vc) * 64 + vd)).

(** RFC 4648 decoding: groups of four characters of the standard alphabet,
    the last one possibly padded; [None] on anything else. *)
Fixpoint base64_strict (s : string) : option (list Z) :=
  match s with
  | EmptyString => Some []
  | String a (String b (String c (String d rest))) =>
      match rest with
      | EmptyString =>
          if Ascii.eqb d "=" then
            if Ascii.eqb c "=" then firstn 1 <$> std_group a b "A" "A"
            else firstn 2 <$> std_group a b c "A"
          else std_group a b c d
      | _ =>
          g ← std_group a b c d;
          k ← base64_strict rest;
          Some (g ++ k)
      end
  | _ => None
  end.

Definition urlsafe_char (c : ascii) : bool :=
  in_range 65 90 c || in_range 97 122 c || in_range 48 57 c
  || Ascii.eqb c "-" || Ascii.eqb c "_".

(** Characters of the URL-safe alphabet, followed by at most two ["="]. *)
Fixpoint urlsafe_base64 (s : string) : bool :=
  match s with
  | EmptyString => true
  | String c rest =>
      if urlsafe_char c then urlsafe_base64 rest
      else String.eqb s "=" || String.eqb s "=="
  end.

Definition has_char (c : ascii) (s : string) : bool :=
  existsb (Ascii.eqb c) (list_ascii_of_string s).

(** *** Fields of a query string *)

(** The values that the query-string builder renders as [key=value]. *)
Definition scalar (v : value) : bool :=
  match v with
  | VUndefined | VNull | VArr _ => false
  | _ => true
  end.

(** The characters that [strictUriEncode] copies. *)
Definition plain_char (c : ascii) : bool :=
  uri_unreserved c && negb (one_of "!'()*" c).

(** The fields of a query string: name and, behind the first ["="], value. *)
Definition query_fields (q : string) : list (string * option string) :=
  map (cut_at "=") (split "&" q).

(** *** Effects on the store *)

(** A computation that changes the store at [l] at most. *)
Definition writes_only {A} (l : loc) (m : M A) : Prop :=
  forall (h : gmap loc props) (l' : loc), l' <> l -> snd (m h) !! l' = h !! l'.

(** *** What [serializer] computes, without the store *)

Section Outcome.
Context `{Platform}.

(** The signature that section 4.5 of the specification describes. *)
Definition spec_signature (key : list Z) (url : URL) : string :=
  to_web_safe (base64_encode (hmac_sha1 key (utf8_encode (pathname url +:+ search url)))).

(** The loop over the keys of the table. *)
Fixpoint apply_format (keys : list string) (format : serializerFormat)
    (sp : props) : result props :=
  match keys with
  | [] => Ok sp
  | key :: rest =>
      if in_object key sp then
        match format_lookup key format with
        | Some f =>
            v ← f (fetch key sp);
            sp' ← assign key v sp;
            apply_format rest format sp'
        | None => Throw TypeError
        end
      else apply_format rest format sp
  end.

(** Step 1 of the signer: rename the identifier, drop the secret. *)
Definition canonical (sp : props) : props :=
  delete_prop "client_secret"
    (delete_prop "client_id" (set_prop "client" (get (VObj sp) "client_id") sp)).

Definition premium_outcome (sp : props) (options : qsOptions) (baseUrl : string)
    : result string :=
  q ← qs (canonical sp) options;
  signature ← match get (VObj sp) "client_secret" with
              | VStr s => createPremiumPlanSignature (baseUrl +:+ "?" +:+ q) s
              | _ => Throw TypeError
              end;
  Ok (q +:+ "&signature=" +:+ signature).

Definition outcome (format : serializerFormat) (baseUrl : string)
    (options : qsOptions) (p : props) : result string :=
  sp ← apply_format (map fst format) format p;
  if has_prop "client_id" sp && has_prop "client_secret" sp
  then premium_outcome sp options baseUrl
  else qs sp options.

End Outcome.

(** *** Numbers and tables *)

Definition is_number (v : value) : bool :=
  match v with VNum _ => true | _ => false end.

(** Two property lists that hold the same object: the same keys, in some
    order, with the same values. *)
Definition same_props (o o' : props) : Prop :=
  map fst o ≡ₚ map fst o' /\ forall k, lookup_prop k o = lookup_prop k o'.

(** * Properties *)

(** ** The serializers on examples *)

Example latLngToString_shapes :
  latLngToString (VStr "38.5,-120.2") = Ok "38.5,-120.2"
  /\ latLngToString (VArr [VNum 38.5; VNum (-120.2)]) = Ok "38.5,-120.2"
  /\ latLngToString (VObj [("lat", VNum 38.5); ("lng", VNum (-120.2))])
     = Ok "38.5,-120.2"
  /\ latLngToString (VObj [("latitude", VNum 38.5); ("longitude", VNum (-120.2))])
     = Ok "38.5,-120.2"
  /\ latLngToString (VObj [("foo", VNum 1)]) = Throw TypeError.
Proof. repeat split; vm_compute; reflexivity. Qed.

Example toLatLngLiteral_shapes :
  toLatLngLiteral (VStr "1.5,2") = Ok (VObj [("lat", VNum 1.5); ("lng", VNum 2)])
  /\ toLatLngLiteral (VArr [VStr "1.5"; VNum 2])
     = Ok (VObj [("lat", VNum 1.5); ("lng", VNum 2)])
  /\ toLatLngLiteral (VObj [("latitude", VNum 1.5); ("longitude", VNum 2)])
     = Ok (VObj [("lat", VNum 1.5); ("lng", VNum 2)])
  /\ toLatLngLiteral (VObj [("lat", VNum 1.5)]) = Throw TypeError.
Proof. repeat split; vm_compute; reflexivity. Qed.

Example latLngBoundsToString_pair :
  latLngBoundsToString
    (VObj [("southwest", VArr [VNum 1; VNum 2]);
           ("northeast", VObj [("lat", VNum 3); ("lng", VNum 4)])])
  = Ok "1,2|3,4".
Proof. vm_compute. reflexivity. Qed.

Example latLngArray_encoded :
  latLngArrayToStringMaybeEncoded (VArr [VArr [VNum 0; VNum 0]]) = Ok "0,0"
  /\ latLngArrayToStringMaybeEncoded
       (VArr [VArr [VNum 38.5; VNum (-120.2)]; VArr [VNum 40.7; VNum (-120.95)]])
     = Ok "enc:_p~iF~ps|U_ulLnnqC".
Proof. split; vm_compute; reflexivity. Qed.

Example objectToString_orders :
  objectToString (VObj [("b", VNum 1); ("a", VNum 2)]) = Ok "a:2|b:1"
  /\ objectToString (VObj [("a", VNum 2); ("b", VNum 1)]) = Ok "a:2|b:1".
Proof. split; vm_compute; reflexivity. Qed.

Example toTimestamp_values :
  toTimestamp (VStr "now") = VStr "now"
  /\ toTimestamp (VNum 1500) = VNum 1500
  /\ toTimestamp (VDate 0) = VNum 0
  /\ toTimestamp (VDate 1500) = VNum 1.5.
Proof. repeat split. Qed.

(** The test vectors of FIPS 180 and of RFC 2202 (test case 2). *)
Example sha1_abc :
  sha1 (utf8_encode "abc")
  = [0xa9; 0x99; 0x3e; 0x36; 0x47; 0x06; 0x81; 0x6a; 0xba; 0x3e;
     0x25; 0x71; 0x78; 0x50; 0xc2; 0x6c; 0x9c; 0xd0; 0xd8; 0x9d].
Proof. vm_compute. reflexivity. Qed.

Example hmac_sha1_rfc2202 :
  hmac_sha1 (utf8_encode "Jefe") (utf8_encode "what do ya want for nothing?")
  = [0xef; 0xfc; 0xdf; 0x6a; 0xe5; 0xeb; 0x2f; 0xa2; 0xd2; 0x74;
     0x16; 0xd5; 0xf1; 0x84; 0xdf; 0x9c; 0x25; 0x9a; 0x7c; 0x79].
Proof. vm_compute. reflexivity. Qed.

Example base64_rfc4648 :
  base64_encode (utf8_encode "foobar") = "Zm9vYmFy"
  /\ base64_encode (utf8_encode "fooba") = "Zm9vYmE="
  /\ base64_encode (utf8_encode "foob") = "Zm9vYg=="
  /\ base64_decode "Zm9vYg==" = utf8_encode "foob"
  /\ base64_strict "Zm9vYg==" = Some (utf8_encode "foob")
  /\ base64_strict "Zm9vYg=" = None.
Proof. repeat split; vm_compute; reflexivity. Qed.

Example qs_array_separator :
  qs [("b", VArr [VStr "x y"; VNum 2]); ("a", VStr "1|2"); ("c", VUndefined)]
     default_options
  = Ok "a=1%7C2&b=x%20y|2".
Proof. vm_compute. reflexivity. Qed.

(** With [sort: false] the keys keep the order of the object; a value
    without a string makes the builder throw. *)
Example qs_unsorted :
  qs [("b", VNum 1); ("a", VNum 2)]
     {| arrayFormat := AF_separator; arrayFormatSeparator := "|"; sort := false |}
  = Ok "b=1&a=2"
  /\ qs [("a", VObj [("toString", VNum 5)])] default_options = Throw TypeError.
Proof. split; vm_compute; reflexivity. Qed.

(** Conversions of an object with a [toString] property of its own. *)
Example own_toString_throws :
  latLngToString (VArr [VObj [("toString", VNum 5)]; VNum 1]) = Throw TypeError
  /\ toLatLngLiteral (VArr [VObj [("toString", VNum 5)]; VNum 1]) = Throw TypeError
  /\ objectToString (VObj [("a", VObj [("toString", VNum 5)])]) = Throw TypeError
  /\ objectToString (VObj [("a", VObj [("valueOf", VNum 5)])])
     = Ok "a:[object Object]".
Proof. repeat split; vm_compute; reflexivity. Qed.

(** ** Results and lists *)

Lemma mapM_result_Ok {A B} (f : A -> result B) (l : list A) (k : list B) :
  mapM f l = Ok k -> Forall2 (fun x y => f x = Ok y) l k.
Proof.
  revert k. induction l as [|x l IH]; intros k; simpl.
  - intros [= <-]. constructor.
  - destruct (f x) as [y|e] eqn:Hx; simpl; [|discriminate].
    destruct (mapM f l) as [k'|e]; simpl; [|discriminate].
    intros [= <-]. constructor; auto.
Qed.

Lemma mapM_result_Forall2 {A B} (f : A -> result B) (l : list A) (k : list B) :
  Forall2 (fun x y => f x = Ok y) l k -> mapM f l = Ok k.
Proof.
  induction 1 as [|x y l k Hx _ IH]; simpl; [reflexivity|].
  rewrite Hx. simpl. rewrite IH. reflexivity.
Qed.

Lemma mapM_result_total {A B} (f : A -> result B) (l : list A) :
  Forall (fun x => exists y, f x = Ok y) l -> exists k, mapM f l = Ok k.
Proof.
  induction 1 as [|x l [y Hy] _ [k Hk]]; simpl.
  - exists []. reflexivity.
  - exists (y :: k). rewrite Hy. simpl. rewrite Hk. reflexivity.
Qed.

Lemma split_nonempty (c : ascii) (s : string) :
  exists p rest, split c s = p :: rest.
Proof.
  induction s as [|x s [p [rest IH]]]; simpl.
  - eauto.
  - destruct (Ascii.eqb x c); [eauto|]. rewrite IH. eauto.
Qed.

Lemma Ok_inj {A} (a b : A) : Ok a = Ok b -> a = b.
Proof.
  intros Hab.
  exact (f_equal (fun r => match r with Ok t => t | Throw _ => a end) Hab).
Qed.

Lemma mapM_result_cons {A B} (f : A -> result B) (x : A) (l : list A) :
  mapM f (x :: l) = (y ← f x; k ← mapM f l; Ok (y :: k)).
Proof. reflexivity. Qed.

Lemma mapM_result_Throw {A B} (f : A -> result B) (l : list A) (e : exn) :
  mapM f l = Throw e -> exists x, In x l /\ f x = Throw e.
Proof.
  induction l as [|x l IH]; simpl; [discriminate|].
  destruct (f x) as [y|e'] eqn:Hx; simpl.
  - destruct (mapM f l) as [k|e']; simpl; [discriminate|].
    intros [= <-]. destruct IH as (x' & Hin & Hx'); eauto.
  - intros [= <-]. eauto.
Qed.

Lemma mapM_result_fails {A B} (f : A -> result B) (l : list A) :
  (forall x e, In x l -> f x = Throw e -> e = TypeError) ->
  Exists (fun x => exists e, f x = Throw e) l ->
  mapM f l = Throw TypeError.
Proof.
  intros Honly Hex.
  destruct (mapM f l) as [k|e] eqn:Hm.
  - apply mapM_result_Ok in Hm. exfalso.
    induction Hm as [|x y l k Hx _ IH].
    + inversion Hex.
    + apply Exists_cons in Hex as [[e He]|Hex]; [congruence|].
      apply IH; [|exact Hex]. intros x' e' Hin. apply Honly. right. exact Hin.
  - apply mapM_result_Throw in Hm as (x & Hin & Hx).
    rewrite (Honly x e Hin Hx). reflexivity.
Qed.

(** ** Conversions *)

Lemma value_nested_ind (P : value -> Prop) :
  P VUndefined -> P VNull -> (forall b, P (VBool b)) -> (forall x, P (VNum x)) ->
  (forall s, P (VStr s)) -> (forall xs, Forall P xs -> P (VArr xs)) ->
  (forall ps, P (VObj ps)) -> (forall tv, P (VDate tv)) ->
  forall v, P v.
Proof.
  intros Hu Hn Hb Hx Hs Ha Ho Hd.
  fix IH 1.
  intros [| |b|x|s|xs|ps|tv];
    [exact Hu|exact Hn|apply Hb|apply Hx|apply Hs| |apply Ho|apply Hd].
  apply Ha. induction xs as [|y xs IHxs]; constructor; [apply IH|exact IHxs].
Qed.

Lemma coordinate_key_own (k : string) :
  In k ["lat"; "lng"; "latitude"; "longitude"; "client_id"; "client_secret";
        "client"; "southwest"; "northeast"] ->
  inherited k = false
  /\ one_of_names Array_prototype_names k = false
  /\ one_of_names Date_prototype_names k = false.
Proof.
  intros Hk. repeat (destruct Hk as [<-|Hk]; [repeat split; reflexivity|]).
  destruct Hk.
Qed.

Lemma in_object_own (k : string) (ps : props) :
  inherited k = false -> in_object k ps = has_prop k ps.
Proof. unfold in_object. intros ->. apply orb_false_r. Qed.

Section Conversions.
Context `{Platform}.

Lemma ToString_convertible (v : value) :
  (convertible v = true -> exists s, ToString v = Ok s)
  /\ (convertible v = false -> ToString v = Throw TypeError).
Proof.
  induction v as [| |b|x|s|xs IH|ps|tv] using value_nested_ind;
    try (split; simpl; [solve [eauto]|discriminate]).
  - destruct b; split; simpl; eauto; discriminate.
  - cbn [ToString convertible].
    set (g := fun x => if is_nullish x then Ok "" else ToString x).
    assert (Hg : (forallb (fun x => is_nullish x || convertible x) xs = true ->
                  exists k, mapM g xs = Ok k)
                 /\ (forallb (fun x => is_nullish x || convertible x) xs = false ->
                     mapM g xs = Throw TypeError)).
    { induction IH as [|x xs [Hx1 Hx2] _ [IH1 IH2]]; [split; simpl; eauto; discriminate|].
      cbn [forallb]. rewrite mapM_result_cons.
      change (g x) with (if is_nullish x then Ok "" else ToString x).
      destruct (is_nullish x); cbn [orb andb mbind result_bind].
      - split.
        + intros Hall. destruct (IH1 Hall) as [k ->]. simpl. eauto.
        + intros Hall. rewrite (IH2 Hall). reflexivity.
      - destruct (convertible x); cbn [andb].
        + destruct (Hx1 eq_refl) as [s ->]. cbn [mbind result_bind]. split.
          * intros Hall. destruct (IH1 Hall) as [k ->]. simpl. eauto.
          * intros Hall. rewrite (IH2 Hall). reflexivity.
        + rewrite (Hx2 eq_refl). split; [discriminate|reflexivity]. }
    destruct Hg as [Hg1 Hg2]. split.
    + intros Hall. destruct (Hg1 Hall) as [k ->]. simpl. eauto.
    + intros Hall. rewrite (Hg2 Hall). reflexivity.
  - simpl. destruct (has_prop "toString" ps); split; simpl; eauto; discriminate.
Qed.

Lemma ToString_Ok_iff (v : value) :
  (exists s, ToString v = Ok s) <-> convertible v = true.
Proof.
  destruct (ToString_convertible v) as [H1 H2]. split; [|exact H1].
  intros [s Hs]. destruct (convertible v); [reflexivity|].
  rewrite (H2 eq_refl) in Hs. discriminate.
Qed.

Lemma ToString_Throw (v : value) (e : exn) :
  ToString v = Throw e -> e = TypeError /\ convertible v = false.
Proof.
  destruct (ToString_convertible v) as [H1 H2]. intros He.
  destruct (convertible v).
  - destruct (H1 eq_refl) as [s Hs]. congruence.
  - rewrite (H2 eq_refl) in He. injection He as <-. auto.
Qed.

Lemma ToNumber_ToString (v : value) :
  (exists n, ToNumber v = Ok n) <-> (exists s, ToString v = Ok s).
Proof.
  destruct v as [| |b|x|s|xs|ps|tv];
    try (split; intros _; simpl; eauto; destruct b; simpl; eauto).
  - unfold ToNumber. destruct (ToString (VArr xs)) as [s|e]; simpl;
      split; intros [? [=]]; eauto.
  - unfold ToNumber. destruct (ToString (VObj ps)) as [s|e]; simpl;
      split; intros [? [=]]; eauto.
Qed.

Lemma ToNumber_Ok_iff (v : value) :
  (exists n, ToNumber v = Ok n) <-> convertible v = true.
Proof. rewrite ToNumber_ToString. apply ToString_Ok_iff. Qed.

Lemma ToNumber_Throw (v : value) (e : exn) :
  ToNumber v = Throw e -> e = TypeError /\ convertible v = false.
Proof.
  destruct v as [| |b|x|s|xs|ps|tv]; try discriminate;
    try (destruct b; discriminate).
  - unfold ToNumber. destruct (ToString (VArr xs)) as [s|e'] eqn:Hs; simpl;
      [discriminate|]. intros [= <-]. apply (ToString_Throw _ _ Hs).
  - unfold ToNumber. destruct (ToString (VObj ps)) as [s|e'] eqn:Hs; simpl;
      [discriminate|]. intros [= <-]. apply (ToString_Throw _ _ Hs).
Qed.

Lemma method_toString_Ok_iff (x : value) :
  (exists s, method_toString x = Ok s) <-> printable x = true.
Proof.
  unfold method_toString, printable. destruct (is_nullish x); cbn [negb andb].
  - split; [intros [s [=]]|discriminate].
  - apply ToString_Ok_iff.
Qed.

Lemma method_toString_Throw (x : value) (e : exn) :
  method_toString x = Throw e -> e = TypeError /\ printable x = false.
Proof.
  unfold method_toString, printable. destruct (is_nullish x); cbn [negb andb].
  - intros [= <-]. auto.
  - apply ToString_Throw.
Qed.

Lemma method_toString_defined (x : value) :
  is_nullish x = false -> method_toString x = ToString x.
Proof. unfold method_toString. intros ->. reflexivity. Qed.

End Conversions.

(** ** Coordinates *)

Lemma Forall_or_Exists {A} (f : A -> bool) (l : list A) :
  Forall (fun c => f c = true) l \/ Exists (fun c => f c = false) l.
Proof.
  induction l as [|x l [IH|IH]].
  - left. constructor.
  - destruct (f x) eqn:Hx.
    + left. constructor; assumption.
    + right. apply Exists_cons_hd. exact Hx.
  - right. apply Exists_cons_tl. exact IH.
Qed.

Lemma Forall_Exists_false {A} (f : A -> bool) (l : list A) :
  Forall (fun c => f c = true) l -> Exists (fun c => f c = false) l -> False.
Proof.
  intros Hall Hex. rewrite Forall_forall in Hall.
  apply Exists_exists in Hex as (x & Hin & Hx).
  rewrite (Hall x Hin) in Hx. discriminate.
Qed.

Section Coordinates.
Context `{Platform}.

Lemma has_both_object (a b : string) (ps : props) :
  inherited a = false -> inherited b = false ->
  has_both a b (VObj ps) = Ok (has_prop a ps && has_prop b ps).
Proof.
  intros Ha Hb. unfold has_both, op_in. cbn [mbind result_bind].
  rewrite !in_object_own by assumption.
  destruct (has_prop a ps); reflexivity.
Qed.

Lemma has_both_array (xs : list value) :
  has_both "lat" "lng" (VArr xs) = Ok false
  /\ has_both "latitude" "longitude" (VArr xs) = Ok false.
Proof. split; reflexivity. Qed.

Lemma latLngToString_of_pair (a b : value) :
  latLngToString (VArr [a; b]) =
  (sa ← method_toString a; sb ← method_toString b; Ok (sa +:+ "," +:+ sb)).
Proof.
  unfold latLngToString. cbn [is_pair elements mbind result_bind].
  rewrite !mapM_result_cons.
  destruct (method_toString a); cbn [mbind result_bind]; [|reflexivity].
  destruct (method_toString b); reflexivity.
Qed.

Lemma toLatLngLiteral_of_pair (a b : value) :
  toLatLngLiteral (VArr [a; b]) =
  (x ← ToNumber a; y ← ToNumber b; Ok (VObj [("lat", VNum x); ("lng", VNum y)])).
Proof.
  unfold toLatLngLiteral. cbn [is_pair elements].
  rewrite !mapM_result_cons.
  destruct (ToNumber a); cbn [mbind result_bind]; [|reflexivity].
  destruct (ToNumber b); reflexivity.
Qed.

Lemma latLngToString_object (ps : props) :
  latLngToString (VObj ps) =
  if has_prop "lat" ps && has_prop "lng" ps
  then latLngToString (VArr [get (VObj ps) "lat"; get (VObj ps) "lng"])
  else if has_prop "latitude" ps && has_prop "longitude" ps
  then latLngToString (VArr [get (VObj ps) "latitude"; get (VObj ps) "longitude"])
  else Throw TypeError.
Proof.
  unfold latLngToString at 1. cbn [is_pair].
  rewrite !has_both_object by reflexivity. cbn [mbind result_bind].
  destruct (has_prop "lat" ps && has_prop "lng" ps); [reflexivity|].
  cbn [mbind result_bind].
  destruct (has_prop "latitude" ps && has_prop "longitude" ps); reflexivity.
Qed.

Lemma toLatLngLiteral_object (ps : props) :
  toLatLngLiteral (VObj ps) =
  if has_prop "lat" ps && has_prop "lng" ps then Ok (VObj ps)
  else if has_prop "latitude" ps && has_prop "longitude" ps
  then Ok (VObj [("lat", get (VObj ps) "latitude"); ("lng", get (VObj ps) "longitude")])
  else Throw TypeError.
Proof.
  unfold toLatLngLiteral. cbn [is_pair].
  rewrite !has_both_object by reflexivity. cbn [mbind result_bind].
  destruct (has_prop "lat" ps && has_prop "lng" ps); [reflexivity|].
  cbn [mbind result_bind].
  destruct (has_prop "latitude" ps && has_prop "longitude" ps); reflexivity.
Qed.

Lemma shape_mismatch_throws (o : value) :
  matches_shape o = false ->
  latLngToString o = Throw TypeError /\ toLatLngLiteral o = Throw TypeError.
Proof.
  destruct o as [| |b|x|s|xs|ps|tv]; try (split; reflexivity); try discriminate.
  - destruct xs as [|a [|b [|c xs]]]; try (split; reflexivity); discriminate.
  - rewrite latLngToString_object, toLatLngLiteral_object. cbn [matches_shape].
    destruct (has_prop "lat" ps && has_prop "lng" ps); [discriminate|].
    destruct (has_prop "latitude" ps && has_prop "longitude" ps); [discriminate|].
    split; reflexivity.
Qed.

Lemma pair_printable (a b : value) :
  (exists s, latLngToString (VArr [a; b]) = Ok s)
  <-> Forall (fun c => printable c = true) [a; b].
Proof.
  rewrite latLngToString_of_pair. split.
  - intros [s Hs].
    destruct (method_toString a) as [sa|] eqn:Ha; [|discriminate].
    destruct (method_toString b) as [sb|] eqn:Hb; [|discriminate].
    repeat constructor; apply method_toString_Ok_iff; eauto.
  - intros Hall. inversion Hall as [|? ? Ha Hall']; subst.
    inversion Hall' as [|? ? Hb _]; subst.
    apply method_toString_Ok_iff in Ha as [sa ->], Hb as [sb ->].
    cbn [mbind result_bind]. eauto.
Qed.

Lemma pair_convertible (a b : value) :
  (exists l, toLatLngLiteral (VArr [a; b]) = Ok l)
  <-> Forall (fun c => convertible c = true) [a; b].
Proof.
  rewrite toLatLngLiteral_of_pair. split.
  - intros [l Hl].
    destruct (ToNumber a) as [x|] eqn:Ha; [|discriminate].
    destruct (ToNumber b) as [y|] eqn:Hb; [|discriminate].
    repeat constructor; apply ToNumber_Ok_iff; eauto.
  - intros Hall. inversion Hall as [|? ? Ha Hall']; subst.
    inversion Hall' as [|? ? Hb _]; subst.
    apply ToNumber_Ok_iff in Ha as [x ->], Hb as [y ->].
    cbn [mbind result_bind]. eauto.
Qed.

Lemma toLatLngLiteral_Ok_iff (o : value) :
  matches_shape o = true ->
  (exists l, toLatLngLiteral o = Ok l)
  <-> (is_pair o = true -> Forall (fun c => convertible c = true) (elements o)).
Proof.
  destruct o as [| |b|x|s|xs|ps|tv]; try discriminate.
  - intros _. split; [discriminate|]. intros _. simpl. eauto.
  - destruct xs as [|a [|b [|c xs]]]; try discriminate. intros _.
    rewrite pair_convertible. cbn [is_pair elements]. tauto.
  - intros Hm. split; [discriminate|]. intros _.
    rewrite toLatLngLiteral_object. cbn [matches_shape] in Hm.
    destruct (has_prop "lat" ps && has_prop "lng" ps); [eauto|].
    destruct (has_prop "latitude" ps && has_prop "longitude" ps); [eauto|].
    discriminate.
Qed.

Lemma latLngToString_Ok_iff (o : value) :
  matches_shape o = true ->
  (exists s, latLngToString o = Ok s)
  <-> Forall (fun c => printable c = true) (components o).
Proof.
  destruct o as [| |b|x|s|xs|ps|tv]; try discriminate.
  - intros _. split; [constructor|]. intros _. simpl. eauto.
  - destruct xs as [|a [|b [|c xs]]]; try discriminate. intros _.
    apply pair_printable.
  - intros Hm. rewrite latLngToString_object. cbn [matches_shape components] in *.
    destruct (has_prop "lat" ps && has_prop "lng" ps); [apply pair_printable|].
    destruct (has_prop "latitude" ps && has_prop "longitude" ps);
      [apply pair_printable|discriminate].
Qed.

Lemma latLngToString_throws (o : value) (e : exn) :
  latLngToString o = Throw e -> e = TypeError.
Proof.
  assert (Hpair : forall a b, latLngToString (VArr [a; b]) = Throw e -> e = TypeError).
  { intros a b. rewrite latLngToString_of_pair.
    destruct (method_toString a) as [sa|e'] eqn:Ha; cbn [mbind result_bind].
    - destruct (method_toString b) as [sb|e'] eqn:Hb; cbn [mbind result_bind];
        [discriminate|].
      intros [= <-]. apply (method_toString_Throw _ _ Hb).
    - intros [= <-]. apply (method_toString_Throw _ _ Ha). }
  destruct o as [| |b|x|s|xs|ps|tv]; try (intros [= <-]; reflexivity);
    try discriminate.
  - destruct xs as [|a [|b [|c xs]]];
      try (intros [= <-]; reflexivity). apply Hpair.
  - rewrite latLngToString_object.
    destruct (has_prop "lat" ps && has_prop "lng" ps); [apply Hpair|].
    destruct (has_prop "latitude" ps && has_prop "longitude" ps); [apply Hpair|].
    intros [= <-]; reflexivity.
Qed.

Lemma toLatLngLiteral_throws (o : value) (e : exn) :
  toLatLngLiteral o = Throw e -> e = TypeError.
Proof.
  destruct o as [| |b|x|s|xs|ps|tv]; try (intros [= <-]; reflexivity);
    try discriminate.
  - destruct xs as [|a [|b [|c xs]]];
      try (intros [= <-]; reflexivity).
    rewrite toLatLngLiteral_of_pair.
    destruct (ToNumber a) as [x|e'] eqn:Ha; cbn [mbind result_bind].
    + destruct (ToNumber b) as [y|e'] eqn:Hb; cbn [mbind result_bind];
        [discriminate|].
      intros [= <-]. apply (ToNumber_Throw _ _ Hb).
    + intros [= <-]. apply (ToNumber_Throw _ _ Ha).
  - rewrite toLatLngLiteral_object.
    destruct (has_prop "lat" ps && has_prop "lng" ps); [discriminate|].
    destruct (has_prop "latitude" ps && has_prop "longitude" ps); [discriminate|].
    intros [= <-]; reflexivity.
Qed.

Lemma toLatLngLiteral_fails (o : value) (e : exn) :
  toLatLngLiteral o = Throw e ->
  (forall s, o <> VStr s)
  /\ (matches_shape o = false
      \/ (is_pair o = true /\ Exists (fun c => convertible c = false) (elements o))).
Proof.
  intros He. split; [intros s ->; discriminate|].
  destruct (matches_shape o) eqn:Hm; [right|left; reflexivity].
  destruct (is_pair o) eqn:Hp.
  - split; [reflexivity|].
    destruct (Forall_or_Exists convertible (elements o)) as [Hall|Hex]; [|exact Hex].
    destruct (proj2 (toLatLngLiteral_Ok_iff o Hm)) as [l Hl]; [auto|congruence].
  - destruct (proj2 (toLatLngLiteral_Ok_iff o Hm)) as [l Hl];
      [intros Hp'; congruence|congruence].
Qed.

Lemma latLngToString_fails (o : value) (e : exn) :
  latLngToString o = Throw e ->
  (forall s, o <> VStr s)
  /\ (matches_shape o = false
      \/ Exists (fun c => printable c = false) (components o)).
Proof.
  intros He. split; [intros s ->; discriminate|].
  destruct (matches_shape o) eqn:Hm; [right|left; reflexivity].
  destruct (Forall_or_Exists printable (components o)) as [Hall|Hex]; [|exact Hex].
  destruct (proj2 (latLngToString_Ok_iff o Hm) Hall) as [s Hs]. congruence.
Qed.

(** C7 (amended): an input that matches none of the four shapes makes both
    functions throw a [TypeError].  On an input that matches one of them
    [toLatLngLiteral] returns unless the input is a pair with a component that
    has no number, and [latLngToString] returns unless one of the two
    components is [null], [undefined] or has no string; then they throw a
    [TypeError] as well. *)
Theorem coordinate_shape_errors (o : value) :
  (matches_shape o = false ->
     latLngToString o = Throw TypeError /\ toLatLngLiteral o = Throw TypeError)
  /\ (matches_shape o = true ->
      ((exists l, toLatLngLiteral o = Ok l)
       <-> (is_pair o = true ->
            Forall (fun c => convertible c = true) (elements o)))
      /\ ((exists s, latLngToString o = Ok s)
          <-> Forall (fun c => printable c = true) (components o)))
  /\ (forall e, latLngToString o = Throw e \/ toLatLngLiteral o = Throw e ->
      e = TypeError).
Proof.
  split; [apply shape_mismatch_throws|]. split.
  - intros Hm. split; [apply toLatLngLiteral_Ok_iff|apply latLngToString_Ok_iff];
      exact Hm.
  - intros e [He|He];
      [apply (latLngToString_throws o e He)|apply (toLatLngLiteral_throws o e He)].
Qed.

(** C10 (amended): a string coordinate is never validated.  [latLngToString]
    returns it unchanged, and [toLatLngLiteral] builds the literal from the
    [Number] of the first two comma-separated parts, a missing second part
    giving [undefined].  Neither function throws on a string:
    [toLatLngLiteral] throws only on an input that matches no shape or is a
    pair with a component that has no number, [latLngToString] only on an
    input that matches no shape or has a component that is [null],
    [undefined] or without a string. *)
Theorem string_coordinate_unvalidated :
  (forall s, latLngToString (VStr s) = Ok s)
  /\ (forall s, exists p0 rest,
        split "," s = p0 :: rest
        /\ toLatLngLiteral (VStr s) =
           Ok (VObj [("lat", VNum (StringToNumber p0));
                     ("lng", match rest with
                             | p1 :: _ => VNum (StringToNumber p1)
                             | [] => VUndefined
                             end)]))
  /\ (forall o e, toLatLngLiteral o = Throw e ->
      (forall s, o <> VStr s)
      /\ (matches_shape o = false
          \/ (is_pair o = true
              /\ Exists (fun c => convertible c = false) (elements o))))
  /\ (forall o e, latLngToString o = Throw e ->
      (forall s, o <> VStr s)
      /\ (matches_shape o = false
          \/ Exists (fun c => printable c = false) (components o))).
Proof.
  split; [reflexivity|]. split; [|split].
  - intros s. destruct (split_nonempty "," s) as [p0 [rest Hs]].
    exists p0, rest. split; [assumption|].
    simpl. rewrite Hs. destruct rest; reflexivity.
  - apply toLatLngLiteral_fails.
  - apply latLngToString_fails.
Qed.

(** ** Timestamps *)

(** C6 (amended): ["now"] and plain numbers pass through unchanged, and a
    date becomes its time value divided by 1000 as a number, fraction
    included; the epoch gives 0. *)
Theorem toTimestamp_cases :
  toTimestamp (VStr "now") = VStr "now"
  /\ (forall n : float, toTimestamp (VNum n) = VNum n)
  /\ (forall tv : float, toTimestamp (VDate tv) = VNum (tv / 1000)%float)
  /\ toTimestamp (VDate 0) = VNum 0.
Proof. repeat split. Qed.

End Coordinates.

(** C7, witness of the amended statement: an object with only [foo]. *)
Lemma coordinate_shape_errors_witness :
  latLngToString (VObj [("foo", VNum 1)]) = Throw TypeError
  /\ toLatLngLiteral (VObj [("foo", VNum 1)]) = Throw TypeError.
Proof.
  apply (proj1 (coordinate_shape_errors (VObj [("foo", VNum 1)]))).
  reflexivity.
Defined.

(** C7, counterexample: a pair matches a shape, and [latLngToString] throws
    on it when a component is [null]. *)
Lemma latLngToString_null_pair :
  matches_shape (VArr [VNull; VNull]) = true
  /\ latLngToString (VArr [VNull; VNull]) = Throw TypeError.
Proof. split; reflexivity. Qed.

(** C10, witness of the amended statement: an object with only [lat] is no
    string and matches no shape. *)
Lemma string_coordinate_unvalidated_witness :
  (forall s, VObj [("lat", VNum 1)] <> VStr s)
  /\ (matches_shape (VObj [("lat", VNum 1)]) = false
      \/ (is_pair (VObj [("lat", VNum 1)]) = true
          /\ Exists (fun c => convertible c = false)
               (elements (VObj [("lat", VNum 1)])))).
Proof.
  apply (proj1 (proj2 (proj2 string_coordinate_unvalidated))
           (VObj [("lat", VNum 1)]) TypeError).
  reflexivity.
Defined.

(** C10, counterexample: without a comma the [lng] component is [undefined],
    not [NaN]; and a pair, which matches a shape, makes both functions throw
    when a component has a [toString] property of its own. *)
Lemma toLatLngLiteral_missing_part :
  toLatLngLiteral (VStr "abc") = Ok (VObj [("lat", VNum nan); ("lng", VUndefined)])
  /\ VUndefined <> VNum nan
  /\ matches_shape (VArr [VObj [("toString", VNum 5)]; VNum 1]) = true
  /\ toLatLngLiteral (VArr [VObj [("toString", VNum 5)]; VNum 1]) = Throw TypeError
  /\ latLngToString (VArr [VObj [("toString", VNum 5)]; VNum 1]) = Throw TypeError.
Proof. repeat split; try reflexivity. discriminate. Qed.

(** C6, counterexample: one and a half seconds after the epoch the result is
    1.5, not the truncated 1. *)
Lemma toTimestamp_keeps_fraction :
  toTimestamp (VDate (Z2float 1500)) = VNum 1.5%float
  /\ toTimestamp (VDate (Z2float 1500)) <> VNum (Z2float (Z.quot 1500 1000)).
Proof.
  split; [reflexivity|].
  intros Heq.
  apply (f_equal (fun v => match v with VNum x => PrimFloat.ltb 1 x | _ => false end))
    in Heq.
  vm_compute in Heq. discriminate.
Qed.

(** ** Coordinate sequences *)

Section Sequences.
Context `{Platform}.

Lemma latLngToString_shape (o : value) (s : string) :
  latLngToString o = Ok s -> matches_shape o = true.
Proof.
  intros Ho. destruct (matches_shape o) eqn:Hm; [reflexivity|].
  destruct (shape_mismatch_throws o Hm) as [Hthrow _]. congruence.
Qed.

Lemma literal_of_serializable (o : value) (s : string) :
  latLngToString o = Ok s -> exists l, toLatLngLiteral o = Ok l.
Proof.
  intros Ho. pose proof (latLngToString_shape o s Ho) as Hm.
  apply (toLatLngLiteral_Ok_iff o Hm). intros Hp.
  assert (Hall : Forall (fun c => printable c = true) (components o))
    by (apply (latLngToString_Ok_iff o Hm); eauto).
  destruct o as [| |b|x|t|xs|ps|tv]; try discriminate.
  cbn [components elements] in *.
  eapply Forall_impl; [exact Hall|].
  intros c Hc. unfold printable in Hc. apply andb_true_iff in Hc. tauto.
Qed.

Lemma literals_of_serializable (xs : list value) (strs : list string) :
  mapM latLngToString xs = Ok strs ->
  exists lits, mapM toLatLngLiteral xs = Ok lits.
Proof.
  intros Hs. apply mapM_result_total.
  apply mapM_result_Ok in Hs.
  induction Hs as [|x y xs ys Hx _ IH]; constructor; [|exact IH].
  eapply literal_of_serializable, Hx.
Qed.

(** C4: a string passes through; for a list whose coordinates serialize, the
    result is the ["enc:"] candidate exactly when it is strictly shorter than
    the ["|"]-joined candidate, the joined candidate otherwise (ties included),
    and it is never longer than either.  A coordinate that does not serialize
    makes the call throw. *)
Theorem maybe_encoded_picks_shorter :
  (forall s, latLngArrayToStringMaybeEncoded (VStr s) = Ok s)
  /\ (forall xs strs,
      mapM latLngToString xs = Ok strs ->
      exists lits r,
        mapM toLatLngLiteral xs = Ok lits
        /\ latLngArrayToStringMaybeEncoded (VArr xs) = Ok r
        /\ let concatenated := join separator strs in
           let encoded := "enc:" +:+ encodePath lits in
           ((String.length encoded < String.length concatenated)%nat -> r = encoded)
           /\ ((String.length concatenated <= String.length encoded)%nat ->
               r = concatenated)
           /\ (String.length r
               <= Nat.min (String.length encoded) (String.length concatenated))%nat)
  /\ (forall xs e,
      mapM latLngToString xs = Throw e ->
      latLngArrayToStringMaybeEncoded (VArr xs) = Throw e).
Proof.
  split; [reflexivity|]. split;
    [|intros xs e Hs; unfold latLngArrayToStringMaybeEncoded; rewrite Hs;
      reflexivity].
  intros xs strs Hs.
  destruct (literals_of_serializable xs strs Hs) as [lits Hl].
  exists lits. unfold latLngArrayToStringMaybeEncoded.
  rewrite Hs. cbn [mbind result_bind]. rewrite Hl. cbn [mbind result_bind].
  generalize ("enc:" +:+ encodePath lits) as encoded.
  generalize (join separator strs) as concatenated.
  intros concatenated encoded.
  destruct (Nat.ltb_spec (String.length encoded) (String.length concatenated))
    as [Hlt|Hge];
    eexists; (split; [reflexivity|]); (split; [reflexivity|]);
    repeat split; intros; try reflexivity; try lia.
Qed.

End Sequences.

(** C4, witness: the two-point path of the specification; the encoded form
    has 22 characters, the joined form 24. *)
Lemma maybe_encoded_picks_shorter_witness :
  exists lits r,
    mapM toLatLngLiteral
      [VArr [VNum 38.5; VNum (-120.2)]; VArr [VNum 40.7; VNum (-120.95)]] = Ok lits
    /\ latLngArrayToStringMaybeEncoded
         (VArr [VArr [VNum 38.5; VNum (-120.2)]; VArr [VNum 40.7; VNum (-120.95)]])
       = Ok r
    /\ let concatenated := join separator ["38.5,-120.2"; "40.7,-120.95"] in
       let encoded := "enc:" +:+ encodePath lits in
       ((String.length encoded < String.length concatenated)%nat -> r = encoded)
       /\ ((String.length concatenated <= String.length encoded)%nat ->
           r = concatenated)
       /\ (String.length r
           <= Nat.min (String.length encoded) (String.length concatenated))%nat.
Proof.
  apply (proj1 (proj2 maybe_encoded_picks_shorter)
           [VArr [VNum 38.5; VNum (-120.2)]; VArr [VNum 40.7; VNum (-120.95)]]).
  vm_compute. reflexivity.
Defined.

(** ** Objects *)

Lemma string_compare_le_trans (a b c : string) :
  String.compare a b <> Gt -> String.compare b c <> Gt -> String.compare a c <> Gt.
Proof.
  revert b c. induction a as [|x a IH]; intros [|y b] [|z c]; simpl;
    try congruence.
  unfold Ascii.compare.
  destruct (N.compare_spec (N_of_ascii x) (N_of_ascii y)) as [Hxy|Hxy|Hxy],
           (N.compare_spec (N_of_ascii y) (N_of_ascii z)) as [Hyz|Hyz|Hyz],
           (N.compare_spec (N_of_ascii x) (N_of_ascii z)) as [Hxz|Hxz|Hxz];
    try congruence; try lia.
  apply IH.
Qed.

Global Instance string_le_trans : Transitive string_le.
Proof.
  intros a b c. unfold string_le, String.leb. intros Hab Hbc.
  pose proof (string_compare_le_trans a b c) as Ht.
  destruct (String.compare a b), (String.compare b c), (String.compare a c);
    try reflexivity; try discriminate; exfalso; apply Ht; congruence.
Qed.

Global Instance string_le_total : Total string_le.
Proof. intros a b. apply String.leb_total. Qed.

Global Instance string_le_antisym : AntiSymm eq string_le.
Proof. intros a b. apply String.leb_antisym. Qed.

Lemma lookup_prop_In (ps : props) (k : string) (v : value) :
  NoDup (map fst ps) -> In (k, v) ps -> lookup_prop k ps = Some v.
Proof.
  induction ps as [|[k' v'] ps IH]; simpl; [tauto|].
  intros Hnd Hin. apply NoDup_cons in Hnd as [Hk' Hnd].
  destruct (String.eqb_spec k' k) as [->|Hne].
  - destruct Hin as [[= ->]|Hin]; [reflexivity|].
    exfalso. apply Hk'. apply list_elem_of_In.
    change k with (fst (k, v)). apply in_map, Hin.
  - destruct Hin as [[= ? ?]|Hin]; [congruence|]. auto.
Qed.

Lemma lookup_prop_Some_In (ps : props) (k : string) (v : value) :
  lookup_prop k ps = Some v -> In (k, v) ps.
Proof.
  induction ps as [|[k' v'] ps IH]; simpl; [discriminate|].
  destruct (String.eqb_spec k' k) as [->|Hne]; [intros [= ->]; auto|auto].
Qed.

Lemma lookup_prop_None (ps : props) (k : string) :
  lookup_prop k ps = None <-> ~ In k (map fst ps).
Proof.
  induction ps as [|[k' v'] ps IH]; simpl; [tauto|].
  destruct (String.eqb_spec k' k) as [->|Hne]; [split; [discriminate|tauto]|].
  rewrite IH. tauto.
Qed.

Lemma lookup_prop_perm (ps ps' : props) (k : string) :
  NoDup (map fst ps) -> ps ≡ₚ ps' -> lookup_prop k ps = lookup_prop k ps'.
Proof.
  intros Hnd Hperm.
  assert (Hnd' : NoDup (map fst ps')).
  { pose proof (Permutation_map fst Hperm) as Hp. rewrite <- Hp. exact Hnd. }
  destruct (lookup_prop k ps) as [v|] eqn:Hl.
  - symmetry. apply lookup_prop_In; [assumption|].
    eapply Permutation_in; [exact Hperm|]. apply lookup_prop_Some_In, Hl.
  - symmetry. apply lookup_prop_None. apply lookup_prop_None in Hl.
    intros Hin. apply Hl. eapply Permutation_in; [|exact Hin].
    apply Permutation_map. symmetry. exact Hperm.
Qed.

Lemma props_rebuild (ps : props) :
  NoDup (map fst ps) ->
  map (fun k => (k, get (VObj ps) k)) (map fst ps) = ps.
Proof.
  intros Hnd. rewrite map_map.
  rewrite <- (map_id ps) at 2. apply map_ext_in.
  intros [k v] Hin. simpl. rewrite (lookup_prop_In ps k v Hnd Hin). reflexivity.
Qed.

Lemma mapM_result_map {A B C} (f : B -> result C) (g : A -> B) (l : list A) :
  mapM f (map g l) = mapM (fun x => f (g x)) l.
Proof.
  induction l as [|x l IH]; [reflexivity|].
  cbn [map]. rewrite !mapM_result_cons, IH. reflexivity.
Qed.

Lemma mapM_result_ext {A B} (f g : A -> result B) (l : list A) :
  (forall x, In x l -> f x = g x) -> mapM f l = mapM g l.
Proof.
  induction l as [|x l IH]; intros Hfg; [reflexivity|].
  rewrite !mapM_result_cons, (Hfg x), IH; [reflexivity| |left; reflexivity].
  intros y Hy. apply Hfg. right. exact Hy.
Qed.

Section Objects.
Context `{Platform}.

(** C5: a string passes through; any other input gives its own keys in
    ascending order, each as ["<key>:<value>"] with the string of the value,
    joined by ["|"]; for an object these are its entries sorted by key, so two
    objects with the same entries in different orders give the same string.
    The call returns when every value has a string. *)
Theorem objectToString_sorted :
  (forall s, objectToString (VStr s) = Ok s)
  /\ (forall o keys, (forall s, o <> VStr s) -> Object_keys o = Ok keys ->
      exists sorted,
        sorted ≡ₚ keys
        /\ Sorted string_le sorted
        /\ objectToString o
           = (strs ← mapM (fun k => s ← ToString (get o k); Ok (k +:+ ":" +:+ s))
                       sorted;
              Ok (join separator strs)))
  /\ (forall ps, NoDup (map fst ps) ->
      exists entries,
        entries ≡ₚ ps
        /\ Sorted string_le (map fst entries)
        /\ objectToString (VObj ps)
           = (strs ← mapM render_entry entries; Ok (join separator strs))
        /\ (Forall (fun e => convertible (snd e) = true) ps ->
            exists strs, mapM render_entry entries = Ok strs))
  /\ (forall ps ps', NoDup (map fst ps) -> ps ≡ₚ ps' ->
      objectToString (VObj ps) = objectToString (VObj ps')).
Proof.
  split; [reflexivity|]. split; [|split].
  - intros o keys Ho Hkeys. exists (merge_sort string_le keys).
    split; [apply merge_sort_Permutation|].
    split; [apply Sorted_merge_sort, _|].
    destruct o; try (exfalso; eapply Ho; reflexivity);
      unfold objectToString; rewrite Hkeys; reflexivity.
  - intros ps Hnd.
    set (entries := map (fun k => (k, get (VObj ps) k))
                        (merge_sort string_le (map fst ps))).
    assert (Hperm : entries ≡ₚ ps).
    { unfold entries. rewrite <- (props_rebuild ps Hnd) at 2.
      apply Permutation_map, merge_sort_Permutation. }
    exists entries. split; [exact Hperm|]. split; [|split].
    + unfold entries. rewrite map_map. simpl. rewrite map_id.
      apply Sorted_merge_sort. apply _.
    + unfold objectToString, entries. cbn [Object_keys mbind result_bind].
      rewrite mapM_result_map. reflexivity.
    + intros Hall. apply mapM_result_total.
      rewrite <- Hperm in Hall. eapply Forall_impl; [exact Hall|].
      intros [k v] Hv. unfold render_entry. cbn [fst snd] in *.
      apply ToString_Ok_iff in Hv as [s ->]. cbn [mbind result_bind]. eauto.
  - intros ps ps' Hnd Hperm. unfold objectToString.
    cbn [Object_keys mbind result_bind].
    assert (Hk : merge_sort string_le (map fst ps)
                 = merge_sort string_le (map fst ps')).
    { apply (Sorted_unique string_le).
      - apply Sorted_merge_sort, _.
      - apply Sorted_merge_sort, _.
      - rewrite !merge_sort_Permutation. apply Permutation_map, Hperm. }
    rewrite Hk. f_equal. apply mapM_result_ext. intros k _. cbn [get].
    rewrite (lookup_prop_perm ps ps' k Hnd Hperm). reflexivity.
Qed.

End Objects.

(** C5, witness: [{b: 1, a: 2}] and [{a: 2, b: 1}]. *)
Lemma objectToString_sorted_witness :
  objectToString (VObj [("b", VNum 1); ("a", VNum 2)])
  = objectToString (VObj [("a", VNum 2); ("b", VNum 1)]).
Proof.
  apply (proj2 (proj2 (proj2 objectToString_sorted))).
  - repeat constructor; simpl; rewrite ?list_elem_of_In; simpl; intuition discriminate.
  - apply perm_swap.
Defined.

(** ** Base64 *)

Lemma replace_from_web_safe (s : string) :
  replace_all "_" "/" (replace_all "-" "+" s) = from_web_safe s.
Proof.
  unfold from_web_safe. induction s as [|x s IH]; simpl; [reflexivity|].
  rewrite IH. f_equal.
  destruct (Ascii.eqb_spec x "-") as [->|H1]; [reflexivity|].
  reflexivity.
Qed.

Lemma replace_to_web_safe (s : string) :
  replace_all "/" "_" (replace_all "+" "-" s) = to_web_safe s.
Proof.
  unfold to_web_safe. induction s as [|x s IH]; simpl; [reflexivity|].
  rewrite IH. f_equal.
  destruct (Ascii.eqb_spec x "+") as [->|H1]; [reflexivity|].
  reflexivity.
Qed.

Lemma lor_shiftl_add (a b k : Z) :
  0 <= k -> 0 <= b < 2 ^ k -> Z.lor (Z.shiftl a k) b = a * 2 ^ k + b.
Proof.
  intros Hk Hb. rewrite <- Z.shiftl_mul_pow2 by assumption.
  symmetry. apply Z.add_nocarry_lor.
  apply Z.bits_inj'. intros n Hn.
  rewrite Z.land_spec, Z.bits_0.
  destruct (Z.lt_ge_cases n k) as [Hlt|Hge].
  - rewrite Z.shiftl_spec_low by assumption. reflexivity.
  - rewrite <- (Z.mod_small b (2 ^ k)) by assumption.
    rewrite Z.mod_pow2_bits_high by lia. apply andb_false_r.
Qed.

Lemma unbase64_range (c : ascii) (v : Z) : unbase64 c = Some v -> 0 <= v < 64.
Proof.
  unfold unbase64.
  repeat match goal with
         | |- context [if ?b then _ else _] => destruct b eqn:?
         end; intros [= <-]; try discriminate; lia.
Qed.

Lemma std_sextet_unbase64 (c : ascii) (v : Z) :
  std_sextet c = Some v ->
  Ascii.eqb c "=" = false /\ unbase64 c = Some v /\ 0 <= v < 64.
Proof.
  unfold std_sextet. intros Hc.
  destruct (Ascii.eqb c "-" || Ascii.eqb c "_") eqn:Hd; [discriminate|].
  split; [|split; [assumption|eapply unbase64_range, Hc]].
  destruct (Ascii.eqb_spec c "=") as [->|]; [discriminate|reflexivity].
Qed.

Lemma group_bytes (va vb vc vd : Z) :
  0 <= va < 64 -> 0 <= vb < 64 -> 0 <= vc < 64 -> 0 <= vd < 64 ->
  be_bytes 3 (((va * 64 + vb) * 64 + vc) * 64 + vd) =
  [Z.lor (Z.shiftl va 2) (Z.shiftr vb 4);
   Z.lor (Z.shiftl (Z.land vb 15) 4) (Z.shiftr vc 2);
   Z.lor (Z.shiftl (Z.land vc 3) 6) vd].
Proof.
  intros Ha Hb Hc Hd. unfold be_bytes.
  change 255 with (Z.ones 8). change 15 with (Z.ones 4). change 3 with (Z.ones 2).
  rewrite !Z.land_ones by lia.
  change (8 * Z.of_nat 2) with 16. change (8 * Z.of_nat 1) with 8.
  change (8 * Z.of_nat 0) with 0.
  rewrite !Z.shiftr_div_pow2 by lia.
  change (2 ^ 16) with 65536. change (2 ^ 8) with 256. change (2 ^ 0) with 1.
  assert (H2 : 2 ^ 2 = 4) by reflexivity.
  assert (H4 : 2 ^ 4 = 16) by reflexivity.
  assert (H6 : 2 ^ 6 = 64) by reflexivity.
  rewrite !lor_shiftl_add; rewrite ?H2, ?H4, ?H6;
    try (Z.div_mod_to_equations; lia).
  repeat f_equal; Z.div_mod_to_equations; lia.
Qed.

Lemma b64_sextets_cons (c : ascii) (v : Z) (rest : string) :
  std_sextet c = Some v -> b64_sextets (String c rest) = v :: b64_sextets rest.
Proof.
  intros Hc. apply std_sextet_unbase64 in Hc as (H1 & H2 & _).
  cbn [b64_sextets]. rewrite H1, H2. reflexivity.
Qed.

Lemma std_group_inv (a b c d : ascii) (g : list Z) :
  std_group a b c d = Some g ->
  exists va vb vc vd,
    std_sextet a = Some va /\ std_sextet b = Some vb
    /\ std_sextet c = Some vc /\ std_sextet d = Some vd
    /\ g = [Z.lor (Z.shiftl va 2) (Z.shiftr vb 4);
            Z.lor (Z.shiftl (Z.land vb 15) 4) (Z.shiftr vc 2);
            Z.lor (Z.shiftl (Z.land vc 3) 6) vd].
Proof.
  unfold std_group. intros Hg.
  destruct (std_sextet a) as [va|] eqn:Ha; [|discriminate].
  destruct (std_sextet b) as [vb|] eqn:Hb; [|discriminate].
  destruct (std_sextet c) as [vc|] eqn:Hc; [|discriminate].
  destruct (std_sextet d) as [vd|] eqn:Hd; [|discriminate].
  cbn [mbind option_bind] in Hg. injection Hg as <-.
  exists va, vb, vc, vd. repeat (split; [reflexivity|]).
  apply group_bytes; eapply std_sextet_unbase64; eassumption.
Qed.

(** On a string that is valid base64 the decoder of the runtime gives the
    RFC 4648 decoding. *)
Lemma base64_decode_strict (s : string) (key : list Z) :
  base64_strict s = Some key -> base64_decode s = key.
Proof.
  unfold base64_decode.
  remember (String.length s) as n eqn:Hn.
  revert s key Hn. induction (lt_wf n) as [n _ IH]. intros s key Hn Hs.
  destruct s as [|a [|b [|c [|d rest]]]]; try discriminate.
  - injection Hs as <-. reflexivity.
  - cbn [base64_strict] in Hs. destruct rest as [|e rest].
    + destruct (Ascii.eqb_spec d "=") as [->|Hd].
      * destruct (Ascii.eqb_spec c "=") as [->|Hc].
        -- destruct (std_group a b "A" "A") as [g|] eqn:Hg; [|discriminate].
           injection Hs as <-.
           apply std_group_inv in Hg
             as (va & vb & vc & vd & Ha & Hb & _ & _ & ->).
           rewrite (b64_sextets_cons a va), (b64_sextets_cons b vb) by assumption.
           reflexivity.
        -- destruct (std_group a b c "A") as [g|] eqn:Hg; [|discriminate].
           injection Hs as <-.
           apply std_group_inv in Hg
             as (va & vb & vc & vd & Ha & Hb & Hc' & _ & ->).
           rewrite (b64_sextets_cons a va), (b64_sextets_cons b vb),
             (b64_sextets_cons c vc) by assumption.
           reflexivity.
      * apply std_group_inv in Hs
          as (va & vb & vc & vd & Ha & Hb & Hc & Hd' & ->).
        rewrite (b64_sextets_cons a va), (b64_sextets_cons b vb),
          (b64_sextets_cons c vc), (b64_sextets_cons d vd) by assumption.
        reflexivity.
    + destruct (std_group a b c d) as [g|] eqn:Hg; [|discriminate].
      destruct (base64_strict (String e rest)) as [k|] eqn:Hk; [|discriminate].
      cbn [mbind option_bind] in Hs. injection Hs as <-.
      apply std_group_inv in Hg
        as (va & vb & vc & vd & Ha & Hb & Hc & Hd & ->).
      rewrite (b64_sextets_cons a va), (b64_sextets_cons b vb),
        (b64_sextets_cons c vc), (b64_sextets_cons d vd) by assumption.
      cbn [b64_bytes app].
      rewrite (IH (String.length (String e rest))) with (key := k);
        [reflexivity| subst n; simpl; lia | reflexivity | assumption].
Qed.

Lemma list_ind3 {A} (P : list A -> Prop) :
  P [] -> (forall a, P [a]) -> (forall a b, P [a; b]) ->
  (forall a b c l, P l -> P (a :: b :: c :: l)) ->
  forall l, P l.
Proof.
  intros H0 H1 H2 H3 l.
  assert (Hall : P l /\ (forall a, P (a :: l)) /\ (forall a b, P (a :: b :: l))).
  { induction l as [|x l (IH0 & IH1 & IH2)]; [auto|].
    split; [apply IH1|]. split; [intros a; apply IH2|].
    intros a b. apply H3, IH0. }
  apply Hall.
Qed.

Lemma b64_char_urlsafe (i : Z) :
  let c := b64_char i in
  urlsafe_char (if Ascii.eqb c "+" then "-"%char
                else if Ascii.eqb c "/" then "_"%char else c) = true.
Proof.
  unfold b64_char. generalize (Z.to_nat i) as n. intros n.
  do 64 (destruct n as [|n]; [reflexivity|]). destruct n; reflexivity.
Qed.

Lemma urlsafe_base64_cons (c : ascii) (s : string) :
  urlsafe_char c = true -> urlsafe_base64 (String c s) = urlsafe_base64 s.
Proof. intros Hc. simpl. rewrite Hc. reflexivity. Qed.

Lemma base64_encode_urlsafe (bs : list Z) :
  urlsafe_base64 (to_web_safe (base64_encode bs)) = true.
Proof.
  induction bs as [|a|a b|a b c l IH] using list_ind3.
  - reflexivity.
  - cbn [base64_encode to_web_safe map_string].
    rewrite !urlsafe_base64_cons by apply b64_char_urlsafe. reflexivity.
  - cbn [base64_encode to_web_safe map_string].
    rewrite !urlsafe_base64_cons by apply b64_char_urlsafe. reflexivity.
  - cbn [base64_encode to_web_safe map_string].
    rewrite !urlsafe_base64_cons by apply b64_char_urlsafe. exact IH.
Qed.

Lemma has_char_cons (c x : ascii) (s : string) :
  has_char c (String x s) = Ascii.eqb c x || has_char c s.
Proof. reflexivity. Qed.

Lemma urlsafe_base64_excludes (c : ascii) (s : string) :
  urlsafe_char c = false -> c <> "="%char ->
  urlsafe_base64 s = true -> has_char c s = false.
Proof.
  intros Hc Hne. induction s as [|x s IH]; [reflexivity|].
  rewrite has_char_cons. cbn [urlsafe_base64].
  destruct (urlsafe_char x) eqn:Hx.
  - intros Hs. rewrite (IH Hs).
    destruct (Ascii.eqb_spec c x) as [->|]; [congruence|reflexivity].
  - intros Hs. apply orb_true_iff in Hs as [Hs|Hs];
      apply String.eqb_eq in Hs; injection Hs as -> ->;
      unfold has_char; cbn [list_ascii_of_string existsb];
      apply Ascii.eqb_neq in Hne; rewrite Hne; reflexivity.
Qed.

Lemma urlsafe_base64_no_plus_slash (s : string) :
  urlsafe_base64 s = true -> has_char "+" s = false /\ has_char "/" s = false.
Proof.
  intros Hs.
  split; apply urlsafe_base64_excludes; try assumption; try reflexivity;
    discriminate.
Qed.

Lemma urlsafe_base64_no_amp (s : string) :
  urlsafe_base64 s = true -> has_char "&" s = false.
Proof.
  apply urlsafe_base64_excludes; [reflexivity|discriminate].
Qed.

Lemma map_string_length (f : ascii -> ascii) (s : string) :
  String.length (map_string f s) = String.length s.
Proof. induction s; simpl; congruence. Qed.

Lemma be_bytes_length (n : nat) (x : Z) : length (be_bytes n x) = n.
Proof. induction n; simpl; congruence. Qed.

Lemma sha1_length (msg : list Z) : length (sha1 msg) = 20%nat.
Proof.
  unfold sha1.
  destruct (fold_left sha1_block _ sha1_init) as [[[[h0 h1] h2] h3] h4].
  rewrite !length_app, !be_bytes_length. reflexivity.
Qed.

Lemma hmac_sha1_length (key msg : list Z) : length (hmac_sha1 key msg) = 20%nat.
Proof. apply sha1_length. Qed.

Lemma base64_encode_length_20 (bs : list Z) :
  length bs = 20%nat -> String.length (base64_encode bs) = 28%nat.
Proof.
  intros Hl.
  do 20 (destruct bs as [|? bs]; [discriminate|]).
  destruct bs; [reflexivity|discriminate].
Qed.

(** ** The signature *)

Section SignerFacts.
Context `{Platform}.

Lemma signature_run (u s : string) (url : URL) :
  URL_parse u = Some url ->
  createPremiumPlanSignature u s
  = Ok (spec_signature (base64_decode (from_web_safe s)) url).
Proof.
  intros Hu. unfold createPremiumPlanSignature, spec_signature.
  rewrite Hu, replace_from_web_safe, replace_to_web_safe. reflexivity.
Qed.

Lemma signature_throws (u s : string) (e : exn) :
  createPremiumPlanSignature u s = Throw e -> URL_parse u = None /\ e = TypeError.
Proof.
  unfold createPremiumPlanSignature.
  destruct (URL_parse u); [discriminate|]. intros [= <-]. auto.
Qed.

Lemma signature_urlsafe (u s sig : string) :
  createPremiumPlanSignature u s = Ok sig ->
  urlsafe_base64 sig = true /\ String.length sig = 28%nat.
Proof.
  unfold createPremiumPlanSignature.
  destruct (URL_parse u) as [url|]; [|discriminate].
  rewrite replace_to_web_safe. intros [= <-].
  split; [apply base64_encode_urlsafe|].
  unfold to_web_safe. rewrite map_string_length.
  apply base64_encode_length_20, hmac_sha1_length.
Qed.

(** C1: on a well-formed URL the signature is the URL-safe translation of
    the base64 of HMAC-SHA1 keyed with the base64 decoding of the translated
    secret, over the path and query of the URL; when the translated secret is
    valid base64 the key is its RFC 4648 decoding; scheme, host and fragment
    do not matter. *)
Theorem signature_refines_spec (u s : string) (url : URL) :
  URL_parse u = Some url ->
  createPremiumPlanSignature u s
  = Ok (spec_signature (base64_decode (from_web_safe s)) url)
  /\ (forall key, base64_strict (from_web_safe s) = Some key ->
      createPremiumPlanSignature u s = Ok (spec_signature key url))
  /\ (forall u' url',
      URL_parse u' = Some url' ->
      pathname url' = pathname url -> search url' = search url ->
      createPremiumPlanSignature u' s = createPremiumPlanSignature u s).
Proof.
  intros Hu. split; [apply signature_run, Hu|]. split.
  - intros key Hkey. rewrite (signature_run u s url Hu).
    rewrite (base64_decode_strict _ _ Hkey). reflexivity.
  - intros u' url' Hu' Hp Hq.
    rewrite (signature_run u s url Hu), (signature_run u' s url' Hu').
    unfold spec_signature. rewrite Hp, Hq. reflexivity.
Qed.

(** C3 (amended): the secret is never rejected.  On a well-formed URL a
    signature is returned for every secret, valid base64 or not, keyed with
    what the lenient decoder makes of it; the only failure is the
    [TypeError] of an ill-formed URL. *)
Theorem signature_accepts_any_secret (u s : string) :
  (forall url, URL_parse u = Some url ->
     exists sig,
       createPremiumPlanSignature u s = Ok sig
       /\ sig = spec_signature (base64_decode (from_web_safe s)) url)
  /\ (forall e, createPremiumPlanSignature u s = Throw e ->
      URL_parse u = None /\ e = TypeError).
Proof.
  split.
  - intros url Hu. eexists. split; [apply signature_run, Hu|reflexivity].
  - apply signature_throws.
Qed.

(** C9: equal arguments give equal signatures, and a signature is written
    in the URL-safe alphabet, without ["+"] and ["/"], with the padding of
    base64 at its end. *)
Theorem signature_deterministic_urlsafe :
  (forall u s u' s', u = u' -> s = s' ->
     createPremiumPlanSignature u s = createPremiumPlanSignature u' s')
  /\ (forall u s sig,
      createPremiumPlanSignature u s = Ok sig ->
      urlsafe_base64 sig = true
      /\ has_char "+" sig = false /\ has_char "/" sig = false
      /\ String.length sig = 28%nat).
Proof.
  split; [intros u s u' s' -> ->; reflexivity|].
  intros u s sig Hsig.
  destruct (signature_urlsafe u s sig Hsig) as [Hsafe Hlen].
  destruct (urlsafe_base64_no_plus_slash sig Hsafe) as [Hp Hs].
  auto.
Qed.

End SignerFacts.

(** A request with a known signature. *)
Example signature_test_vector :
  createPremiumPlanSignature
    "https://test.url/maps/api/directions/json?avoid=ferries&client=testClient&destination=38.8977%2C-77.0365&mode=driving&origin=33.8121%2C-117.9190&units=imperial"
    "testClientSecret"
  = Ok "YRJoTd6ohbpsR14WkWv3S7H6MqU=".
Proof. vm_compute. reflexivity. Qed.

(** C1, witness. *)
Lemma signature_refines_spec_witness :
  createPremiumPlanSignature
    "https://test.url/maps/api/directions/json?avoid=ferries&client=testClient"
    "testClientSecret"
  = Ok (spec_signature (base64_decode (from_web_safe "testClientSecret"))
          {| protocol := "https:"; host := "test.url";
             pathname := "/maps/api/directions/json";
             search := "?avoid=ferries&client=testClient"; hash := "" |}).
Proof.
  refine (proj1 (signature_refines_spec
                   "https://test.url/maps/api/directions/json?avoid=ferries&client=testClient"
                   "testClientSecret" _ _)).
  reflexivity.
Defined.

(** C3, witness of the amended statement: a secret with an illegal
    character. *)
Lemma signature_accepts_any_secret_witness :
  exists sig,
    createPremiumPlanSignature
      "https://maps.googleapis.com/maps/api/geocode/json?address=x&client=c" "secret!"
    = Ok sig
    /\ sig = spec_signature (base64_decode (from_web_safe "secret!"))
               {| protocol := "https:"; host := "maps.googleapis.com";
                  pathname := "/maps/api/geocode/json";
                  search := "?address=x&client=c"; hash := "" |}.
Proof.
  apply (proj1 (signature_accepts_any_secret
                  "https://maps.googleapis.com/maps/api/geocode/json?address=x&client=c"
                  "secret!")).
  reflexivity.
Defined.

(** C3, counterexample: ["secret!"] is not valid base64, and a signature is
    returned all the same. *)
Lemma signature_of_malformed_secret :
  base64_strict (from_web_safe "secret!") = None
  /\ createPremiumPlanSignature
       "https://maps.googleapis.com/maps/api/geocode/json?address=x&client=c" "secret!"
     = Ok "qVEcyZsF-Z3xC4n44TsQSkRp3Lg=".
Proof. split; vm_compute; reflexivity. Qed.

(** C9, witness. *)
Lemma signature_deterministic_urlsafe_witness :
  urlsafe_base64 "qVEcyZsF-Z3xC4n44TsQSkRp3Lg=" = true
  /\ has_char "+" "qVEcyZsF-Z3xC4n44TsQSkRp3Lg=" = false
  /\ has_char "/" "qVEcyZsF-Z3xC4n44TsQSkRp3Lg=" = false
  /\ String.length "qVEcyZsF-Z3xC4n44TsQSkRp3Lg=" = 28%nat.
Proof.
  apply (proj2 signature_deterministic_urlsafe
           "https://maps.googleapis.com/maps/api/geocode/json?address=x&client=c"
           "secret!").
  vm_compute. reflexivity.
Defined.

(** ** The store *)

Lemma bind_run {A B} (m : M A) (f : A -> M B) (h : gmap loc props) :
  (m ≫= f) h = match m h with
               | (Ok a, h') => f a h'
               | (Throw e, h') => (Throw e, h')
               end.
Proof. reflexivity. Qed.

Lemma writes_only_ret {A} (l : loc) (a : A) : writes_only l (mret a).
Proof. intros h l' _. reflexivity. Qed.

Lemma writes_only_lift {A} (l : loc) (r : result A) : writes_only l (lift r).
Proof. intros h l' _. reflexivity. Qed.

Lemma writes_only_read (l k : loc) : writes_only l (read k).
Proof. intros h l' _. unfold read. destruct (h !! k); reflexivity. Qed.

Lemma writes_only_write (l : loc) (o : props) : writes_only l (write l o).
Proof. intros h l' Hne. unfold write. simpl. apply lookup_insert_ne. congruence. Qed.

Lemma writes_only_bind {A B} (l : loc) (m : M A) (f : A -> M B) :
  writes_only l m -> (forall a, writes_only l (f a)) -> writes_only l (m ≫= f).
Proof.
  intros Hm Hf h l' Hne. rewrite bind_run.
  specialize (Hm h l' Hne). destruct (m h) as [[a|e] h1]; simpl in Hm.
  - rewrite (Hf a h1 l' Hne). exact Hm.
  - exact Hm.
Qed.

Lemma writes_only_forEach {A} (l : loc) (xs : list A) (f : A -> M unit) :
  (forall x, writes_only l (f x)) -> writes_only l (forEach xs f).
Proof.
  intros Hf. induction xs as [|x xs IH]; simpl.
  - apply writes_only_ret.
  - apply writes_only_bind; [apply Hf|intros _; exact IH].
Qed.

Create HintDb store.

#[local] Hint Resolve writes_only_ret writes_only_lift writes_only_read
  writes_only_write : store.

Ltac frame_store :=
  repeat first
    [ apply writes_only_bind; [|intros ?]
    | solve [auto with store]
    | match goal with
      | |- writes_only _ (if ?b then _ else _) => destruct b
      | |- writes_only _ (match ?x with _ => _ end) => destruct x
      end ].

Section Store.
Context `{Platform}.

Lemma createPremiumPlanQueryString_writes_only
    (l : loc) (options : qsOptions) (baseUrl : string) :
  writes_only l (createPremiumPlanQueryString l options baseUrl).
Proof. unfold createPremiumPlanQueryString. frame_store. Qed.

Lemma serializer_body_writes_only
    (format : serializerFormat) (baseUrl : string) (options : qsOptions) (l : loc) :
  writes_only l
    (forEach (map fst format) (fun key =>
       sp ← read l;
       if in_object key sp then
         match format_lookup key format with
         | Some f =>
             v ← lift (f (fetch key sp)); sp ← lift (assign key v sp); write l sp
         | None => lift (Throw TypeError)
         end
       else mret tt);;
     sp ← read l;
     if in_object "client_id" sp && in_object "client_secret" sp
     then createPremiumPlanQueryString l options baseUrl
     else lift (qs sp options)).
Proof.
  apply writes_only_bind.
  - apply writes_only_forEach. intros key. frame_store.
  - intros _. apply writes_only_bind; [auto with store|].
    intros sp. destruct (_ && _); [|auto with store].
    apply createPremiumPlanQueryString_writes_only.
Qed.

(** C8: a call leaves every object of the store as it was, the caller's
    parameter object included; what it writes, it writes to its own copy. *)
Theorem serializer_preserves_store
    (format : serializerFormat) (baseUrl : string) (options : qsOptions)
    (params : loc) (h : gmap loc props) :
  let h' := snd (serializer format baseUrl options params h) in
  (forall p, h !! params = Some p -> h' !! params = Some p)
  /\ (forall l o, h !! l = Some o -> h' !! l = Some o).
Proof.
  intros h'.
  assert (Hall : forall l o, h !! l = Some o -> h' !! l = Some o); [|auto].
  intros l o Hl. subst h'. unfold serializer.
  rewrite bind_run. unfold read at 1.
  destruct (h !! params) as [p|]; [|exact Hl].
  rewrite bind_run. unfold alloc at 1.
  set (l' := fresh (dom h)).
  assert (Hne : l <> l').
  { intros ->. apply (is_fresh (dom h)). apply elem_of_dom. eauto. }
  rewrite (serializer_body_writes_only format baseUrl options l' _ l Hne).
  rewrite lookup_insert_ne by congruence. exact Hl.
Qed.

Lemma forEach_format_run (format : serializerFormat) (l : loc)
    (keys : list string) (sp : props) (h : gmap loc props) :
  h !! l = Some sp ->
  exists h',
    forEach keys (fun key =>
       sp ← read l;
       if in_object key sp then
         match format_lookup key format with
         | Some f =>
             v ← lift (f (fetch key sp)); sp ← lift (assign key v sp); write l sp
         | None => lift (Throw TypeError)
         end
       else mret tt) h
    = (apply_format keys format sp ≫= fun _ => Ok tt, h')
    /\ (forall sp', apply_format keys format sp = Ok sp' -> h' !! l = Some sp').
Proof.
  revert sp h. induction keys as [|key keys IH]; intros sp h Hl.
  - exists h. split; [reflexivity|]. intros sp' [= <-]. exact Hl.
  - cbn [forEach apply_format]. rewrite bind_run.
    rewrite bind_run. unfold read at 1. rewrite Hl.
    destruct (in_object key sp).
    + destruct (format_lookup key format) as [f|].
      * rewrite bind_run. unfold lift at 1.
        destruct (f (fetch key sp)) as [v|e].
        -- rewrite bind_run. unfold lift at 1.
           cbn [mbind result_bind].
           destruct (assign key v sp) as [sp1|e].
           ++ unfold write at 1.
              destruct (IH sp1 (<[l := sp1]> h))
                as (h' & Hrun & Hfin); [apply lookup_insert_eq|].
              exists h'. split; [exact Hrun|exact Hfin].
           ++ exists h. split; [reflexivity|discriminate].
        -- exists h. split; [reflexivity|discriminate].
      * exists h. split; [reflexivity|discriminate].
    + destruct (IH sp h Hl) as (h' & Hrun & Hfin).
      exists h'. split; [exact Hrun|exact Hfin].
Qed.

Lemma lookup_set_prop_ne (k k' : string) (v : value) (o : props) :
  k <> k' -> lookup_prop k' (set_prop k v o) = lookup_prop k' o.
Proof.
  intros Hne. induction o as [|[k0 v0] o IH]; simpl.
  - destruct (String.eqb_spec k k'); [congruence|reflexivity].
  - destruct (String.eqb_spec k0 k) as [->|Hk0]; simpl.
    + destruct (String.eqb_spec k k'); [congruence|reflexivity].
    + destruct (String.eqb_spec k0 k'); [reflexivity|exact IH].
Qed.

Lemma premium_run (l : loc) (options : qsOptions) (baseUrl : string)
    (sp : props) (h : gmap loc props) :
  h !! l = Some sp ->
  fst (createPremiumPlanQueryString l options baseUrl h)
  = premium_outcome sp options baseUrl.
Proof.
  intros Hl. unfold createPremiumPlanQueryString, premium_outcome, canonical.
  rewrite bind_run. unfold read at 1. rewrite Hl.
  rewrite bind_run. unfold write at 1.
  rewrite bind_run. unfold read at 1. rewrite lookup_insert_eq.
  rewrite bind_run. unfold write at 1.
  rewrite bind_run. unfold read at 1. rewrite lookup_insert_eq.
  rewrite bind_run. unfold write at 1.
  rewrite bind_run. unfold read at 1. rewrite lookup_insert_eq.
  rewrite bind_run. unfold lift at 1.
  assert (Hsec : get (VObj (set_prop "client" (get (VObj sp) "client_id") sp))
                   "client_secret" = get (VObj sp) "client_secret").
  { cbn [get]. rewrite lookup_set_prop_ne by discriminate. reflexivity. }
  rewrite Hsec.
  destruct (qs _ options) as [q|e]; [|reflexivity].
  rewrite bind_run. unfold lift at 1.
  cbn [mbind result_bind].
  destruct (match get (VObj sp) "client_secret" with VStr s => _ | _ => _ end);
    reflexivity.
Qed.

(** The result of a call is a function of the caller's object alone. *)
Lemma serializer_run (format : serializerFormat) (baseUrl : string)
    (options : qsOptions) (params : loc) (p : props) (h : gmap loc props) :
  h !! params = Some p ->
  fst (serializer format baseUrl options params h)
  = outcome format baseUrl options p.
Proof.
  intros Hp. unfold serializer, outcome.
  rewrite bind_run. unfold read at 1. rewrite Hp.
  rewrite bind_run. unfold alloc at 1.
  set (l := fresh (dom h)). rewrite bind_run.
  destruct (forEach_format_run format l (map fst format) p (<[l := p]> h))
    as (h' & Hrun & Hfin); [apply lookup_insert_eq|].
  rewrite Hrun.
  destruct (apply_format (map fst format) format p) as [sp|e]; [|reflexivity].
  cbn [mbind result_bind].
  rewrite bind_run. unfold read at 1. rewrite (Hfin sp eq_refl).
  rewrite !in_object_own by reflexivity.
  destruct (has_prop "client_id" sp && has_prop "client_secret" sp).
  - apply premium_run, Hfin. reflexivity.
  - reflexivity.
Qed.

End Store.

(** C8, witness: after a premium-plan call the caller's object still holds
    its identifier and its secret. *)
Lemma serializer_preserves_store_witness :
  snd (serializer [] "https://maps.googleapis.com/maps/api/geocode/json"
         default_options 1%positive
         {[ 1%positive := [("address", VStr "123 Main St");
                           ("client_id", VStr "clientID");
                           ("client_secret", VStr "testClientSecret")] ]})
    !! 1%positive
  = Some [("address", VStr "123 Main St"); ("client_id", VStr "clientID");
          ("client_secret", VStr "testClientSecret")].
Proof.
  apply (proj1 (serializer_preserves_store []
                  "https://maps.googleapis.com/maps/api/geocode/json"
                  default_options 1%positive _)).
  reflexivity.
Defined.

(** ** Splitting and joining *)

Lemma has_char_app (c : ascii) (a b : string) :
  has_char c (a +:+ b) = has_char c a || has_char c b.
Proof.
  induction a as [|x a IH]; [reflexivity|].
  change (String x a +:+ b) with (String x (a +:+ b)).
  rewrite !has_char_cons, IH. apply orb_assoc.
Qed.

Lemma split_cons_sep (c : ascii) (s : string) :
  split c (String c s) = "" :: split c s.
Proof. cbn [split]. rewrite Ascii.eqb_refl. reflexivity. Qed.

Lemma split_cons_other (c x : ascii) (s : string) :
  x <> c ->
  exists p ps, split c s = p :: ps /\ split c (String x s) = String x p :: ps.
Proof.
  intros Hne. destruct (split_nonempty c s) as (p & ps & Hs).
  exists p, ps. split; [assumption|].
  cbn [split]. apply Ascii.eqb_neq in Hne. rewrite Hne, Hs. reflexivity.
Qed.

Lemma split_app_sep (c : ascii) (a b : string) :
  split c (a +:+ String c b) = split c a ++ split c b.
Proof.
  induction a as [|x a IH].
  - change ("" +:+ String c b) with (String c b). apply split_cons_sep.
  - change (String x a +:+ String c b) with (String x (a +:+ String c b)).
    destruct (Ascii.eqb_spec x c) as [->|Hne].
    + rewrite !split_cons_sep, IH. reflexivity.
    + destruct (split_cons_other c x a Hne) as (p & ps & Hs & ->).
      destruct (split_cons_other c x (a +:+ String c b) Hne) as (p' & ps' & Hs' & ->).
      rewrite IH, Hs in Hs'. injection Hs' as <- <-. reflexivity.
Qed.

Lemma split_no_sep (c : ascii) (s : string) :
  has_char c s = false -> split c s = [s].
Proof.
  induction s as [|x s IH]; [reflexivity|].
  rewrite has_char_cons. intros Hx. apply orb_false_iff in Hx as [Hx Hs].
  cbn [split]. rewrite Ascii.eqb_sym, Hx, (IH Hs). reflexivity.
Qed.

Lemma split_join (c : ascii) (pieces : list string) :
  Forall (fun p => has_char c p = false) pieces -> pieces <> [] ->
  split c (join (String c "") pieces) = pieces.
Proof.
  induction 1 as [|p pieces Hp Hall IH]; [congruence|]. intros _.
  destruct pieces as [|p' pieces].
  - apply split_no_sep, Hp.
  - change (join (String c "") (p :: p' :: pieces))
      with (p +:+ String c (join (String c "") (p' :: pieces))).
    rewrite split_app_sep, (split_no_sep c p Hp), IH by discriminate.
    reflexivity.
Qed.

Lemma cut_at_no_sep (c : ascii) (s : string) :
  has_char c s = false -> cut_at c s = (s, None).
Proof.
  induction s as [|x s IH]; [reflexivity|].
  rewrite has_char_cons. intros Hx. apply orb_false_iff in Hx as [Hx Hs].
  cbn [cut_at]. rewrite Ascii.eqb_sym, Hx, (IH Hs). reflexivity.
Qed.

Lemma cut_at_app (c : ascii) (a b : string) :
  has_char c a = false -> cut_at c (a +:+ String c b) = (a, Some b).
Proof.
  induction a as [|x a IH].
  - intros _. change ("" +:+ String c b) with (String c b).
    cbn [cut_at]. rewrite Ascii.eqb_refl. reflexivity.
  - rewrite has_char_cons. intros Hx. apply orb_false_iff in Hx as [Hx Ha].
    change (String x a +:+ String c b) with (String x (a +:+ String c b)).
    cbn [cut_at]. rewrite Ascii.eqb_sym, Hx, (IH Ha). reflexivity.
Qed.

Lemma append_assoc (a b c : string) : (a +:+ b) +:+ c = a +:+ (b +:+ c).
Proof.
  induction a as [|x a IH]; [reflexivity|].
  change (String x ((a +:+ b) +:+ c) = String x (a +:+ (b +:+ c))). congruence.
Qed.

Lemma append_empty_r (a : string) : a +:+ "" = a.
Proof.
  induction a as [|x a IH]; [reflexivity|].
  change (String x (a +:+ "") = String x a). congruence.
Qed.

(** ** Percent-encoding *)

Lemma hex_digit_cases (n : Z) :
  In (hex_digit n) (list_ascii_of_string "0123456789ABCDEF").
Proof.
  unfold hex_digit. generalize (Z.to_nat n) as k. intros k.
  do 16 (destruct k as [|k]; [simpl; tauto|]).
  destruct k; simpl; tauto.
Qed.

Lemma percent_shape (n : Z) :
  exists d1 d2,
    percent n = String "%" (String d1 (String d2 ""))
    /\ In d1 (list_ascii_of_string "0123456789ABCDEF")
    /\ In d2 (list_ascii_of_string "0123456789ABCDEF").
Proof.
  unfold percent. eexists _, _. split; [reflexivity|].
  split; apply hex_digit_cases.
Qed.

Lemma strict_replace_app (a b : string) :
  strict_replace (a +:+ b) = strict_replace a +:+ strict_replace b.
Proof.
  induction a as [|x a IH]; [reflexivity|].
  change (String x a +:+ b) with (String x (a +:+ b)).
  cbn [strict_replace]. rewrite IH, append_assoc. reflexivity.
Qed.

Lemma strict_replace_percent (n : Z) : strict_replace (percent n) = percent n.
Proof.
  destruct (percent_shape n) as (d1 & d2 & -> & H1 & H2).
  simpl in H1, H2.
  repeat (destruct H1 as [<-|H1]); try contradiction;
    repeat (destruct H2 as [<-|H2]); try contradiction; reflexivity.
Qed.

(** One character of the input gives either itself or one or two
    percent-escapes. *)
Lemma strictUriEncode_cons (c : ascii) (rest : string) :
  exists X,
    strictUriEncode (String c rest) = X +:+ strictUriEncode rest
    /\ ((plain_char c = true /\ X = String c "")
        \/ (plain_char c = false
            /\ exists n tail, X = percent n +:+ tail
                              /\ (tail = "" \/ exists m, tail = percent m))).
Proof.
  unfold strictUriEncode. cbn [encodeURIComponent].
  rewrite strict_replace_app. eexists. split; [reflexivity|].
  unfold plain_char.
  destruct (uri_unreserved c) eqn:Hu; cbn [andb].
  - cbn [strict_replace]. destruct (one_of "!'()*" c) eqn:Hs; cbn [negb].
    + right. split; [reflexivity|]. exists (code c), "". rewrite !append_empty_r.
      auto.
    + left. auto.
  - right. split; [reflexivity|].
    unfold utf8_char. destruct (code c <? 128).
    + exists (code c), "". cbn [map join].
      rewrite strict_replace_percent, append_empty_r. auto.
    + eexists _, _. cbn [map join].
      change (percent ?a +:+ "" +:+ percent ?b) with (percent a +:+ percent b).
      rewrite strict_replace_app, !strict_replace_percent.
      split; [reflexivity|]. right. eauto.
Qed.

Lemma has_char_percent (d : ascii) (n : Z) :
  d <> "%"%char -> ~ In d (list_ascii_of_string "0123456789ABCDEF") ->
  has_char d (percent n) = false.
Proof.
  intros Hp Hd. destruct (percent_shape n) as (d1 & d2 & -> & H1 & H2).
  rewrite !has_char_cons.
  destruct (Ascii.eqb_spec d "%"); [contradiction|].
  destruct (Ascii.eqb_spec d d1) as [->|]; [contradiction|].
  destruct (Ascii.eqb_spec d d2) as [->|]; [contradiction|]. reflexivity.
Qed.

(** A character that is neither copied nor part of an escape does not occur
    in the output. *)
Lemma strictUriEncode_excludes (d : ascii) (s : string) :
  plain_char d = false -> d <> "%"%char ->
  ~ In d (list_ascii_of_string "0123456789ABCDEF") ->
  has_char d (strictUriEncode s) = false.
Proof.
  intros Hplain Hp Hd. induction s as [|c s IH]; [reflexivity|].
  destruct (strictUriEncode_cons c s) as (X & -> & [[Hc ->]|[Hc HX]]).
  - rewrite has_char_app, IH, has_char_cons.
    destruct (Ascii.eqb_spec d c) as [->|]; [congruence|reflexivity].
  - destruct HX as (n & tail & -> & [->|[m ->]]);
      rewrite !has_char_app, IH, !has_char_percent by assumption; reflexivity.
Qed.

Lemma strictUriEncode_no_amp (s : string) : has_char "&" (strictUriEncode s) = false.
Proof.
  apply strictUriEncode_excludes; [reflexivity|discriminate|].
  simpl. intuition discriminate.
Qed.

Lemma strictUriEncode_no_eq (s : string) : has_char "=" (strictUriEncode s) = false.
Proof.
  apply strictUriEncode_excludes; [reflexivity|discriminate|].
  simpl. intuition discriminate.
Qed.

Lemma has_char_percent_self (n : Z) (tail : string) :
  has_char "%" (percent n +:+ tail) = true.
Proof. reflexivity. Qed.

(** An output without escapes is the input. *)
Lemma strictUriEncode_plain (s : string) :
  has_char "%" (strictUriEncode s) = false -> strictUriEncode s = s.
Proof.
  induction s as [|c s IH]; [reflexivity|].
  destruct (strictUriEncode_cons c s) as (X & -> & [[Hc ->]|[Hc HX]]).
  - change (String c "" +:+ strictUriEncode s) with (String c (strictUriEncode s)).
    rewrite has_char_cons. intros Hx. apply orb_false_iff in Hx as [_ Hs].
    rewrite (IH Hs). reflexivity.
  - destruct HX as (n & tail & -> & _).
    rewrite append_assoc, has_char_percent_self. discriminate.
Qed.

(** ** Property lists *)

Lemma lookup_set_prop_eq (k : string) (v : value) (o : props) :
  lookup_prop k (set_prop k v o) = Some v.
Proof.
  induction o as [|[k0 v0] o IH]; simpl.
  - rewrite String.eqb_refl. reflexivity.
  - destruct (String.eqb_spec k0 k) as [->|Hne]; simpl.
    + rewrite String.eqb_refl. reflexivity.
    + apply String.eqb_neq in Hne. rewrite Hne. exact IH.
Qed.

Lemma lookup_delete_prop_ne (k k' : string) (o : props) :
  k <> k' -> lookup_prop k' (delete_prop k o) = lookup_prop k' o.
Proof.
  intros Hne. induction o as [|[k0 v0] o IH]; simpl; [reflexivity|].
  destruct (String.eqb_spec k0 k) as [->|Hk0]; simpl.
  - apply String.eqb_neq in Hne. rewrite Hne. exact IH.
  - rewrite IH. reflexivity.
Qed.

Lemma delete_prop_keys (k k' : string) (o : props) :
  In k' (map fst (delete_prop k o)) -> k' <> k /\ In k' (map fst o).
Proof.
  induction o as [|[k0 v0] o IH]; simpl; [tauto|].
  destruct (String.eqb_spec k0 k) as [->|Hk0]; simpl.
  - intros Hin. destruct (IH Hin). auto.
  - intros [<-|Hin]; [auto|]. destruct (IH Hin). auto.
Qed.

Lemma lookup_prop_key (k : string) (v : value) (o : props) :
  lookup_prop k o = Some v -> In k (map fst o).
Proof.
  intros Hl. change k with (fst (k, v)). apply in_map, lookup_prop_Some_In, Hl.
Qed.

(** ** The fields of a generated query string *)

Lemma Forall2_result_In {A B} (P : A -> B -> Prop) (l : list A) (k : list B) :
  Forall2 P l k ->
  (forall x, In x l -> exists y, In y k /\ P x y)
  /\ (forall y, In y k -> exists x, In x l /\ P x y).
Proof.
  induction 1 as [|x y l k Hxy _ [IH1 IH2]]; [split; intros ? []|].
  split.
  - intros x' [<-|Hin]; [exists y; split; [left; reflexivity|exact Hxy]|].
    destruct (IH1 x' Hin) as (y' & Hy' & HP). exists y'. split; [right|]; assumption.
  - intros y' [<-|Hin]; [exists x; split; [left; reflexivity|exact Hxy]|].
    destruct (IH2 y' Hin) as (x' & Hx' & HP). exists x'. split; [right|]; assumption.
Qed.

Section QueryString.
Context `{Platform}.

Lemma qs_encode_no_amp (v : value) (e : string) :
  qs_encode v = Ok e -> has_char "&" e = false.
Proof.
  unfold qs_encode. destruct (ToString v); [|discriminate].
  intros [= <-]. apply strictUriEncode_no_amp.
Qed.

Lemma qs_formatter_invariant (key : string) (xs : list value) (acc r : list string) :
  (acc = [] \/ exists t, acc = [strictUriEncode key +:+ "=" +:+ t]
                         /\ has_char "&" t = false) ->
  reduce (qs_formatter default_options key) xs acc = Ok r ->
  r = [] \/ exists t, r = [strictUriEncode key +:+ "=" +:+ t]
                      /\ has_char "&" t = false.
Proof.
  revert acc. induction xs as [|v xs IH]; intros acc Hacc;
    [intros [= <-]; exact Hacc|].
  cbn [reduce].
  destruct (qs_formatter default_options key acc v) as [acc'|] eqn:Hstep;
    [|discriminate].
  cbn [mbind result_bind]. apply IH.
  assert (Hnew : forall v' e,
    qs_encode v' = Ok e ->
    acc' = match acc with
           | [] => [strictUriEncode key +:+ "=" +:+ e]
           | _ :: _ => [join "," acc +:+ arrayFormatSeparator default_options +:+ e]
           end ->
    acc' = [] \/ exists t, acc' = [strictUriEncode key +:+ "=" +:+ t]
                           /\ has_char "&" t = false).
  { intros v' e He ->. right. pose proof (qs_encode_no_amp v' e He) as Hamp.
    destruct Hacc as [->|(t & -> & Ht)].
    - exists e. split; [reflexivity|exact Hamp].
    - exists (t +:+ "|" +:+ e). split.
      + cbn [join]. f_equal. rewrite !append_assoc. reflexivity.
      + rewrite !has_char_app, Ht, Hamp. reflexivity. }
  unfold qs_formatter in Hstep. cbn [arrayFormat default_options] in Hstep.
  destruct v;
    try (injection Hstep as <-; exact Hacc);
    match type of Hstep with
    | (e ← qs_encode ?v'; _) = _ =>
        destruct (qs_encode v') as [e|] eqn:He; [|discriminate];
        cbn [mbind result_bind] in Hstep;
        apply (Hnew v' e He); destruct acc; injection Hstep as <-; reflexivity
    end.
Qed.

Lemma qs_field_shape (o : props) (key s : string) :
  qs_field default_options o key = Ok s ->
  s = "" \/ (has_char "&" s = false
             /\ exists v, cut_at "=" s = (strictUriEncode key, v)).
Proof.
  assert (Hpair : forall t, has_char "&" t = false ->
    has_char "&" (strictUriEncode key +:+ "=" +:+ t) = false
    /\ exists v, cut_at "=" (strictUriEncode key +:+ "=" +:+ t)
                 = (strictUriEncode key, v)).
  { intros t Ht. split.
    - rewrite !has_char_app, strictUriEncode_no_amp, Ht. reflexivity.
    - exists (Some t). apply (cut_at_app "=" (strictUriEncode key) t).
      apply strictUriEncode_no_eq. }
  unfold qs_field.
  destruct (get (VObj o) key) as [| |b|x|t|xs|ps|tv];
    try (match goal with
         | |- (e ← qs_encode ?v; _) = _ -> _ =>
             destruct (qs_encode v) as [e|] eqn:He; [|discriminate];
             cbn [mbind result_bind]; intros [= <-]; right;
             apply Hpair, (qs_encode_no_amp v e He)
         end).
  - intros [= <-]. left. reflexivity.
  - intros [= <-]. right. split; [apply strictUriEncode_no_amp|].
    exists None. apply cut_at_no_sep, strictUriEncode_no_eq.
  - destruct (reduce (qs_formatter default_options key) xs []) as [parts|] eqn:Hr;
      [|discriminate].
    cbn [mbind result_bind]. intros [= <-].
    destruct (qs_formatter_invariant key xs [] parts (or_introl eq_refl) Hr)
      as [->|(t & -> & Ht)]; [left; reflexivity|].
    right. apply Hpair, Ht.
Qed.

Lemma qs_pieces (o : props) (q : string) :
  qs o default_options = Ok q ->
  exists pieces,
    q = join "&" pieces
    /\ (forall piece, In piece pieces <->
          nonempty piece = true
          /\ exists k, In k (map fst o)
                       /\ qs_field default_options o k = Ok piece)
    /\ (forall k, In k (map fst o) ->
        exists piece, qs_field default_options o k = Ok piece).
Proof.
  unfold qs. cbn [arrayFormatSeparator default_options separator String.length
                  Nat.eqb negb sort].
  destruct (mapM _ _) as [fields|] eqn:Hm; [|discriminate].
  cbn [mbind result_bind]. intros [= <-].
  apply mapM_result_Ok, Forall2_result_In in Hm as [Hl Hr].
  assert (Hkeys : forall k, In k (merge_sort string_le (map fst o))
                            <-> In k (map fst o)).
  { intros k. rewrite <- !list_elem_of_In.
    rewrite (merge_sort_Permutation string_le). reflexivity. }
  eexists. split; [reflexivity|]. split.
  - intros piece. rewrite <- list_elem_of_In, list_elem_of_filter, list_elem_of_In.
    split; intros [Hne Hin]; (split; [exact Hne|]).
    + destruct (Hr piece Hin) as (k & Hk & Hf). exists k.
      split; [apply Hkeys, Hk|exact Hf].
    + destruct Hin as (k & Hk & Hf).
      destruct (Hl k (proj2 (Hkeys k) Hk)) as (piece' & Hin & Hf').
      congruence.
  - intros k Hk. destruct (Hl k (proj2 (Hkeys k) Hk)) as (piece & _ & Hf). eauto.
Qed.

Lemma qs_split (o : props) (q : string) (pieces : list string) :
  q = join "&" pieces ->
  (forall piece, In piece pieces ->
     nonempty piece = true
     /\ exists k, In k (map fst o) /\ qs_field default_options o k = Ok piece) ->
  pieces <> [] -> split "&" q = pieces.
Proof.
  intros -> Hp Hne. apply split_join; [|exact Hne].
  apply Forall_forall. intros piece Hin. apply list_elem_of_In in Hin.
  destruct (Hp piece Hin) as (Hnonempty & k & _ & Hf).
  destruct (qs_field_shape o k piece Hf) as [Hempty|[Hamp _]]; [|exact Hamp].
  rewrite Hempty in Hnonempty. discriminate.
Qed.

(** Every field of the query string carries the encoded name of a key. *)
Lemma query_field_names (o : props) (q : string) (name : string) (v : option string) :
  qs o default_options = Ok q ->
  In (name, v) (query_fields q) ->
  name = "" \/ exists k, In k (map fst o) /\ name = strictUriEncode k.
Proof.
  intros Hq Hin. destruct (qs_pieces o q Hq) as (pieces & Hjoin & Hp & _).
  destruct pieces as [|p0 pieces].
  - subst q. simpl in Hin. destruct Hin as [[= <- _]|[]]. left. reflexivity.
  - unfold query_fields in Hin.
    rewrite (qs_split o q (p0 :: pieces) Hjoin) in Hin;
      [|intros piece; apply Hp|discriminate].
    apply in_map_iff in Hin as (piece & Hcut & Hpiece).
    apply Hp in Hpiece as (Hnonempty & k & Hk & Hf).
    destruct (qs_field_shape o k piece Hf) as [Hempty|[_ [v' Hcut']]].
    + rewrite Hempty in Hnonempty. discriminate.
    + right. exists k. split; [exact Hk|]. congruence.
Qed.

(** A key with a scalar value gives the field [key=value], both encoded. *)
Lemma query_field_of_scalar (o : props) (q key : string) (v : value) :
  qs o default_options = Ok q ->
  lookup_prop key o = Some v -> scalar v = true ->
  exists s,
    ToString v = Ok s
    /\ In (strictUriEncode key, Some (strictUriEncode s)) (query_fields q).
Proof.
  intros Hq Hl Hv. destruct (qs_pieces o q Hq) as (pieces & Hjoin & Hp & Hall).
  destruct (Hall key (lookup_prop_key key v o Hl)) as [piece Hf].
  assert (Hs : exists s, ToString v = Ok s
                 /\ piece = strictUriEncode key +:+ "=" +:+ strictUriEncode s).
  { unfold qs_field in Hf. cbn [get] in Hf. rewrite Hl in Hf. cbn [default id] in Hf.
    unfold qs_encode in Hf.
    destruct v; try discriminate;
      (destruct (ToString _) as [str|] eqn:Hs; [|discriminate]);
      cbn [mbind result_bind] in Hf; injection Hf as <-; eauto. }
  destruct Hs as (s & Hs & ->). exists s. split; [exact Hs|].
  assert (Hin : In (strictUriEncode key +:+ "=" +:+ strictUriEncode s) pieces).
  { apply Hp. split.
    - destruct (strictUriEncode key); reflexivity.
    - exists key. split; [eapply lookup_prop_key, Hl|exact Hf]. }
  unfold query_fields. rewrite (qs_split o q pieces Hjoin).
  - rewrite <- (cut_at_app "=" (strictUriEncode key) (strictUriEncode s))
      by apply strictUriEncode_no_eq.
    apply in_map, Hin.
  - intros piece. apply Hp.
  - intros ->. destruct Hin.
Qed.

Lemma canonical_client (sp : props) :
  lookup_prop "client" (canonical sp) = Some (get (VObj sp) "client_id").
Proof.
  unfold canonical.
  rewrite !lookup_delete_prop_ne by discriminate. apply lookup_set_prop_eq.
Qed.

Lemma canonical_drops (sp : props) (k : string) :
  In k (map fst (canonical sp)) -> k <> "client_id" /\ k <> "client_secret".
Proof.
  unfold canonical. intros Hin.
  apply delete_prop_keys in Hin as [Hsec Hin].
  apply delete_prop_keys in Hin as [Hid _]. auto.
Qed.

Lemma query_fields_signed (q sig : string) :
  has_char "&" sig = false ->
  query_fields (q +:+ "&signature=" +:+ sig)
  = query_fields q ++ [("signature", Some sig)].
Proof.
  intros Hsig. unfold query_fields.
  change (q +:+ "&signature=" +:+ sig) with (q +:+ String "&" ("signature=" +:+ sig)).
  rewrite split_app_sep, map_app. f_equal.
  rewrite split_no_sep.
  - reflexivity.
  - rewrite has_char_app, Hsig. reflexivity.
Qed.

(** C2 (amended): when the serialized identifier is a scalar (a string, a
    number, a boolean, a date or a plain object) and the secret a string, the
    query-string builder returns for the remaining fields and the target URL
    is well formed, the call returns a query string that has a [client] field
    with the percent-encoded string of the identifier, has no [client_id] and
    no [client_secret] field, and ends with the [signature] field, computed
    over the rest. *)
Theorem premium_query_string
    (format : serializerFormat) (baseUrl : string) (params : loc)
    (h : gmap loc props) (p sp : props) (cid : value) (secret q : string)
    (url : URL) :
  h !! params = Some p ->
  apply_format (map fst format) format p = Ok sp ->
  lookup_prop "client_id" sp = Some cid -> scalar cid = true ->
  lookup_prop "client_secret" sp = Some (VStr secret) ->
  qs (canonical sp) default_options = Ok q ->
  URL_parse (baseUrl +:+ "?" +:+ q) = Some url ->
  exists sig out client,
    fst (serializer format baseUrl default_options params h) = Ok out
    /\ createPremiumPlanSignature (baseUrl +:+ "?" +:+ q) secret = Ok sig
    /\ out = q +:+ "&signature=" +:+ sig
    /\ ToString cid = Ok client
    /\ In ("client", Some (strictUriEncode client)) (query_fields out)
    /\ (forall v, ~ In ("client_id", v) (query_fields out))
    /\ (forall v, ~ In ("client_secret", v) (query_fields out))
    /\ last (query_fields out) = Some ("signature", Some sig).
Proof.
  intros Hp Hsp Hid Hscalar Hsec Hq Hurl.
  pose proof (signature_run _ secret url Hurl) as Hsig.
  set (sig := spec_signature (base64_decode (from_web_safe secret)) url) in Hsig.
  destruct (query_field_of_scalar (canonical sp) q "client" cid Hq)
    as (client & Hstr & Hclient);
    [rewrite canonical_client; cbn [get]; rewrite Hid; reflexivity
    |exact Hscalar|].
  exists sig, (q +:+ "&signature=" +:+ sig), client.
  assert (Hamp : has_char "&" sig = false).
  { apply urlsafe_base64_no_amp. eapply signature_urlsafe, Hsig. }
  split; [|split; [exact Hsig|split; [reflexivity|split; [exact Hstr|]]]].
  - rewrite (serializer_run format baseUrl default_options params p h Hp).
    unfold outcome. rewrite Hsp. cbn [mbind result_bind].
    unfold has_prop. rewrite Hid, Hsec. cbn [andb].
    unfold premium_outcome. rewrite Hq. cbn [mbind result_bind get].
    rewrite Hsec. cbn [default id]. rewrite Hsig. reflexivity.
  - rewrite (query_fields_signed q sig Hamp).
    assert (Hnone : forall name v,
              name <> "" -> has_char "%" name = false ->
              In (name, v) (query_fields q) ->
              name <> "client_id" /\ name <> "client_secret").
    { intros name v Hne Hplain Hin.
      destruct (query_field_names (canonical sp) q name v Hq Hin) as [->|(k & Hk & Hname)];
        [congruence|].
      assert (Hkname : k = name).
      { rewrite <- (strictUriEncode_plain k); [symmetry; exact Hname|].
        rewrite <- Hname. exact Hplain. }
      subst k. exact (canonical_drops sp name Hk). }
    split; [|split; [|split]].
    + apply in_or_app. left. exact Hclient.
    + intros v Hin. apply in_app_or in Hin as [Hin|[[=]|[]]].
      destruct (Hnone "client_id" v) as [Hbad _];
        [discriminate|reflexivity|exact Hin|]. congruence.
    + intros v Hin. apply in_app_or in Hin as [Hin|[[=]|[]]].
      destruct (Hnone "client_secret" v) as [_ Hbad];
        [discriminate|reflexivity|exact Hin|]. congruence.
    + apply last_snoc.
Qed.

End QueryString.

(** C2, witness of the amended statement: the geocoding request of the
    specification. *)
Lemma premium_query_string_witness :
  exists sig out client,
    fst (serializer [] "https://maps.googleapis.com/maps/api/geocode/json"
           default_options 1%positive
           {[ 1%positive := [("address", VStr "123 Main St");
                             ("client_id", VStr "clientID");
                             ("client_secret", VStr "testClientSecret")] ]})
    = Ok out
    /\ createPremiumPlanSignature
         ("https://maps.googleapis.com/maps/api/geocode/json" +:+ "?"
          +:+ "address=123%20Main%20St&client=clientID")
         "testClientSecret" = Ok sig
    /\ out = "address=123%20Main%20St&client=clientID" +:+ "&signature=" +:+ sig
    /\ ToString (VStr "clientID") = Ok client
    /\ In ("client", Some (strictUriEncode client)) (query_fields out)
    /\ (forall v, ~ In ("client_id", v) (query_fields out))
    /\ (forall v, ~ In ("client_secret", v) (query_fields out))
    /\ last (query_fields out) = Some ("signature", Some sig).
Proof.
  eapply (premium_query_string []
            "https://maps.googleapis.com/maps/api/geocode/json" 1%positive _
            [("address", VStr "123 Main St"); ("client_id", VStr "clientID");
             ("client_secret", VStr "testClientSecret")]
            [("address", VStr "123 Main St"); ("client_id", VStr "clientID");
             ("client_secret", VStr "testClientSecret")]
            (VStr "clientID") "testClientSecret"
            "address=123%20Main%20St&client=clientID");
    reflexivity.
Defined.

(** The string that the call of the witness returns. *)
Example geocode_request_value :
  fst (serializer [] "https://maps.googleapis.com/maps/api/geocode/json"
         default_options 1%positive
         {[ 1%positive := [("address", VStr "123 Main St");
                           ("client_id", VStr "clientID");
                           ("client_secret", VStr "testClientSecret")] ]})
  = Ok "address=123%20Main%20St&client=clientID&signature=OLY6pVgA6d18RnuDPXKhHaIo_l8=".
Proof. vm_compute. reflexivity. Qed.

(** C2, counterexample: with an empty list as identifier the premium-plan
    path is taken and the returned string has no [client] field. *)
Lemma premium_query_without_client :
  fst (serializer [] "https://maps.googleapis.com/maps/api/geocode/json"
         default_options 1%positive
         {[ 1%positive := [("address", VStr "x");
                           ("client_id", VArr []);
                           ("client_secret", VStr "testClientSecret")] ]})
  = Ok "address=x&signature=pEJ1NhrsftdXwtZexlFwqBEreEg="
  /\ forall v, ~ In ("client", v)
                  (query_fields "address=x&signature=pEJ1NhrsftdXwtZexlFwqBEreEg=").
Proof.
  split; [vm_compute; reflexivity|].
  intros v. vm_compute. intuition discriminate.
Qed.

(** * Further properties of the serializers *)

(** ** One coordinate in its shapes *)

Section Shapes.
Context `{Platform}.

Lemma latLngToString_lat_lng (ps : props) (a b : value) :
  lookup_prop "lat" ps = Some a -> lookup_prop "lng" ps = Some b ->
  latLngToString (VObj ps) = latLngToString (VArr [a; b]).
Proof.
  intros Ha Hb. rewrite latLngToString_object.
  unfold has_prop. rewrite Ha, Hb. cbn [andb get]. rewrite Ha, Hb. reflexivity.
Qed.

Lemma latLngToString_latitude_longitude (ps : props) (a b : value) :
  has_prop "lat" ps && has_prop "lng" ps = false ->
  lookup_prop "latitude" ps = Some a -> lookup_prop "longitude" ps = Some b ->
  latLngToString (VObj ps) = latLngToString (VArr [a; b]).
Proof.
  intros Hno Ha Hb. rewrite latLngToString_object, Hno.
  unfold has_prop. rewrite Ha, Hb. cbn [andb get]. rewrite Ha, Hb. reflexivity.
Qed.

(** X1: an object with [lat] and [lng] serializes like the pair of the two
    values, whatever else it holds; an object with [latitude] and [longitude]
    does so too, unless it also has both [lat] and [lng], which then win. *)
Theorem coordinate_shapes_agree (ps : props) (a b : value) :
  (lookup_prop "lat" ps = Some a -> lookup_prop "lng" ps = Some b ->
   latLngToString (VObj ps) = latLngToString (VArr [a; b]))
  /\ (has_prop "lat" ps && has_prop "lng" ps = false ->
      lookup_prop "latitude" ps = Some a -> lookup_prop "longitude" ps = Some b ->
      latLngToString (VObj ps) = latLngToString (VArr [a; b])).
Proof.
  split; [apply latLngToString_lat_lng|apply latLngToString_latitude_longitude].
Qed.

Lemma toLatLngLiteral_cases (o l : value) :
  toLatLngLiteral o = Ok l ->
  (exists s, o = VStr s)
  \/ (exists a b x y, o = VArr [a; b]
        /\ ToNumber a = Ok x /\ ToNumber b = Ok y
        /\ l = VObj [("lat", VNum x); ("lng", VNum y)])
  \/ (exists ps, o = VObj ps /\ l = o
        /\ has_prop "lat" ps = true /\ has_prop "lng" ps = true)
  \/ (exists ps, o = VObj ps
        /\ has_prop "lat" ps && has_prop "lng" ps = false
        /\ has_prop "latitude" ps = true /\ has_prop "longitude" ps = true
        /\ l = VObj [("lat", get o "latitude"); ("lng", get o "longitude")]).
Proof.
  destruct o as [| |b|x|s|xs|ps|tv]; try discriminate.
  - eauto.
  - destruct xs as [|a [|b [|c xs]]]; try discriminate.
    rewrite toLatLngLiteral_of_pair.
    destruct (ToNumber a) as [x|] eqn:Ha; [|discriminate].
    destruct (ToNumber b) as [y|] eqn:Hb; [|discriminate].
    cbn [mbind result_bind]. intros [= <-]. right. left. eauto 8.
  - rewrite toLatLngLiteral_object.
    destruct (has_prop "lat" ps && has_prop "lng" ps) eqn:H1.
    + intros [= <-]. right. right. left. exists ps.
      apply andb_true_iff in H1. tauto.
    + destruct (has_prop "latitude" ps && has_prop "longitude" ps) eqn:H2;
        [|discriminate].
      intros [= <-]. right. right. right. exists ps.
      apply andb_true_iff in H2. tauto.
Qed.

Lemma toLatLngLiteral_has_lat_lng (o l : value) :
  toLatLngLiteral o = Ok l ->
  exists ps, l = VObj ps /\ has_prop "lat" ps = true /\ has_prop "lng" ps = true.
Proof.
  destruct o as [| |b|x|s|xs|ps|tv]; try discriminate.
  - intros [= <-]. eexists. split; [reflexivity|]. split; reflexivity.
  - intros Hl.
    destruct (toLatLngLiteral_cases _ _ Hl)
      as [[s [=]]|[(a & b & x & y & _ & _ & _ & ->)
                  |[(ps & [=] & _)|(ps & [=] & _)]]].
    eexists. split; [reflexivity|]. split; reflexivity.
  - intros Hl.
    destruct (toLatLngLiteral_cases _ _ Hl)
      as [[s [=]]|[(a & b & x & y & [=] & _)
                  |[(ps' & [= <-] & -> & H1 & H2)
                   |(ps' & [= <-] & _ & _ & _ & ->)]]].
    + exists ps. repeat split; auto.
    + eexists. split; [reflexivity|]. split; reflexivity.
Qed.

(** X2: the literal that [toLatLngLiteral] returns has [lat] and [lng], and
    normalising it again changes nothing. *)
Theorem toLatLngLiteral_idempotent (o l : value) :
  toLatLngLiteral o = Ok l ->
  toLatLngLiteral l = Ok l
  /\ exists ps, l = VObj ps /\ has_prop "lat" ps = true /\ has_prop "lng" ps = true.
Proof.
  intros Hl. destruct (toLatLngLiteral_has_lat_lng o l Hl) as (ps & -> & H1 & H2).
  split; [|eauto].
  rewrite toLatLngLiteral_object, H1, H2. reflexivity.
Qed.

(** X3: for a coordinate that is not a string, serializing the normalised
    literal gives what serializing the coordinate gives, provided the
    components of a pair are numbers. *)
Theorem normalise_then_serialize (o l : value) :
  toLatLngLiteral o = Ok l ->
  (forall s, o <> VStr s) ->
  (is_pair o = true -> Forall (fun c => is_number c = true) (elements o)) ->
  latLngToString l = latLngToString o.
Proof.
  intros Hl Hstr Hnum.
  destruct (toLatLngLiteral_cases o l Hl)
    as [[s ->]|[(a & b & x & y & -> & Hx & Hy & ->)
                |[(ps & -> & -> & _)|(ps & -> & Hno & H3 & H4 & ->)]]].
  - exfalso. eapply Hstr. reflexivity.
  - specialize (Hnum eq_refl). cbn [elements] in Hnum.
    inversion Hnum as [|? ? Ha Hnum']; subst.
    inversion Hnum' as [|? ? Hb _]; subst.
    destruct a; try discriminate. destruct b; try discriminate.
    cbn [ToNumber] in Hx, Hy. apply Ok_inj in Hx, Hy. subst.
    erewrite latLngToString_lat_lng; reflexivity.
  - reflexivity.
  - unfold has_prop in H3, H4. cbn [get].
    destruct (lookup_prop "latitude" ps) as [a|] eqn:Ha; [|discriminate].
    destruct (lookup_prop "longitude" ps) as [b|] eqn:Hb; [|discriminate].
    cbn [default id].
    rewrite (latLngToString_latitude_longitude ps a b Hno Ha Hb).
    erewrite latLngToString_lat_lng; reflexivity.
Qed.

(** X4: a pair of numbers is read back from its string, when the two numbers
    print without a comma and read back from their own print. *)
Theorem pair_round_trip (x y : float) :
  has_char "," (NumberToString x) = false ->
  has_char "," (NumberToString y) = false ->
  StringToNumber (NumberToString x) = x ->
  StringToNumber (NumberToString y) = y ->
  exists s,
    latLngToString (VArr [VNum x; VNum y]) = Ok s
    /\ toLatLngLiteral (VStr s) = Ok (VObj [("lat", VNum x); ("lng", VNum y)]).
Proof.
  intros Hx Hy Rx Ry. exists (NumberToString x +:+ "," +:+ NumberToString y).
  split; [reflexivity|].
  unfold toLatLngLiteral.
  change (NumberToString x +:+ "," +:+ NumberToString y)
    with (NumberToString x +:+ String "," (NumberToString y)).
  rewrite split_app_sep, (split_no_sep _ _ Hx), (split_no_sep _ _ Hy).
  cbn [app map at_index nth]. rewrite Rx, Ry. reflexivity.
Qed.

(** ** Bounds *)

(** X5: a string passes through; any other bounds value gives the two corners,
    southwest first, joined by ["|"], exactly when it is neither [null] nor
    [undefined] and both corners serialize; a missing corner makes the call
    throw. *)
Theorem latLngBoundsToString_corners :
  (forall s, latLngBoundsToString (VStr s) = Ok s)
  /\ (forall b r, (forall s, b <> VStr s) ->
      (latLngBoundsToString b = Ok r <->
       is_nullish b = false
       /\ exists sw ne,
            latLngToString (get b "southwest") = Ok sw
            /\ latLngToString (get b "northeast") = Ok ne
            /\ r = sw +:+ separator +:+ ne))
  /\ (forall ps,
      lookup_prop "southwest" ps = None \/ lookup_prop "northeast" ps = None ->
      latLngBoundsToString (VObj ps) = Throw TypeError).
Proof.
  split; [reflexivity|]. split.
  - intros b r Hstr.
    assert (Hrun : is_nullish b = false ->
              latLngBoundsToString b
              = (a ← latLngToString (get b "southwest");
                 c ← latLngToString (get b "northeast");
                 Ok (a +:+ separator +:+ c))).
    { destruct b; try discriminate; try reflexivity.
      exfalso. eapply Hstr. reflexivity. }
    destruct (is_nullish b) eqn:Hn.
    + split; [|intros [[=] _]].
      destruct b; try discriminate.
    + rewrite (Hrun eq_refl). split.
      * destruct (latLngToString (get b "southwest")) as [sw|]; [|discriminate].
        destruct (latLngToString (get b "northeast")) as [ne|]; [|discriminate].
        cbn [mbind result_bind]. intros [= <-]. eauto 6.
      * intros (_ & sw & ne & -> & -> & ->). reflexivity.
  - intros ps Hmiss. unfold latLngBoundsToString, member.
    cbn [get mbind result_bind].
    destruct (lookup_prop "southwest" ps) as [sw|] eqn:Hsw.
    + destruct Hmiss as [[=]|Hne]. rewrite Hne. cbn [default id].
      destruct (latLngToString sw) as [a|e] eqn:Hsw'; [reflexivity|].
      rewrite (latLngToString_throws sw e Hsw'). reflexivity.
    + reflexivity.
Qed.

End Shapes.

(** X1, witness: an object with a further field. *)
Lemma coordinate_shapes_agree_witness :
  latLngToString (VObj [("name", VStr "x"); ("lat", VNum 1); ("lng", VNum 2)])
  = latLngToString (VArr [VNum 1; VNum 2]).
Proof.
  apply (proj1 (coordinate_shapes_agree
                  [("name", VStr "x"); ("lat", VNum 1); ("lng", VNum 2)]
                  (VNum 1) (VNum 2))); reflexivity.
Defined.

(** X2, witness: the literal of a string. *)
Lemma toLatLngLiteral_idempotent_witness :
  toLatLngLiteral (VObj [("lat", VNum 1.5); ("lng", VNum 2)])
  = Ok (VObj [("lat", VNum 1.5); ("lng", VNum 2)])
  /\ exists ps, VObj [("lat", VNum 1.5); ("lng", VNum 2)] = VObj ps
                /\ has_prop "lat" ps = true /\ has_prop "lng" ps = true.
Proof.
  apply (toLatLngLiteral_idempotent (VStr "1.5,2")). reflexivity.
Defined.

(** X3, witness: the verbose shape. *)
Lemma normalise_then_serialize_witness :
  latLngToString (VObj [("lat", VNum 1); ("lng", VNum 2)])
  = latLngToString (VObj [("latitude", VNum 1); ("longitude", VNum 2)]).
Proof.
  apply normalise_then_serialize.
  - reflexivity.
  - discriminate.
  - discriminate.
Defined.

(** X4, witness. *)
Lemma pair_round_trip_witness :
  exists s,
    latLngToString (VArr [VNum 38.5; VNum (-120.2)]) = Ok s
    /\ toLatLngLiteral (VStr s)
       = Ok (VObj [("lat", VNum 38.5); ("lng", VNum (-120.2))]).
Proof. apply pair_round_trip; vm_compute; reflexivity. Defined.

(** X5, witness: bounds without a northeast corner. *)
Lemma latLngBoundsToString_corners_witness :
  latLngBoundsToString (VObj [("southwest", VStr "1,2")]) = Throw TypeError.
Proof.
  apply (proj2 (proj2 latLngBoundsToString_corners)). right. reflexivity.
Defined.

(** ** Edges of the other serializers *)

Section Edges.
Context `{Platform}.

(** X6: when the joined candidate has at most four characters it is the
    result, whatever the path encoder returns; the empty list gives the empty
    string. *)
Theorem short_sequence_not_encoded :
  (forall xs strs,
     mapM latLngToString xs = Ok strs ->
     (String.length (join separator strs) <= 4)%nat ->
     latLngArrayToStringMaybeEncoded (VArr xs) = Ok (join separator strs))
  /\ latLngArrayToStringMaybeEncoded (VArr []) = Ok "".
Proof.
  assert (Hshort : forall xs strs,
     mapM latLngToString xs = Ok strs ->
     (String.length (join separator strs) <= 4)%nat ->
     latLngArrayToStringMaybeEncoded (VArr xs) = Ok (join separator strs)).
  { intros xs strs Hs Hlen.
    destruct (literals_of_serializable xs strs Hs) as [lits Hl].
    unfold latLngArrayToStringMaybeEncoded.
    rewrite Hs. cbn [mbind result_bind]. rewrite Hl. cbn [mbind result_bind].
    change ("enc:" +:+ encodePath lits)
      with (String "e" (String "n" (String "c" (String ":" (encodePath lits))))).
    cbn [String.length].
    destruct (Nat.ltb_spec (S (S (S (S (String.length (encodePath lits))))))
                (String.length (join separator strs))); [lia|reflexivity]. }
  split; [exact Hshort|].
  apply (Hshort [] []); [reflexivity|simpl; lia].
Qed.

(** X7: [objectToString] throws, and then a [TypeError], exactly on [null],
    on [undefined], and on an input that holds under one of its keys a value
    without a string; a value without keys of its own (the empty object, a
    number, a boolean, a date) gives the empty string. *)
Theorem objectToString_throws_on_nullish (o : value) :
  ((exists e, objectToString o = Throw e)
   <-> is_nullish o = true
       \/ ((forall s, o <> VStr s)
           /\ exists keys k, Object_keys o = Ok keys /\ In k keys
                             /\ convertible (get o k) = false))
  /\ (forall e, objectToString o = Throw e -> e = TypeError)
  /\ ((forall s, o <> VStr s) -> Object_keys o = Ok [] -> objectToString o = Ok "").
Proof.
  set (render := fun k => s ← ToString (get o k); Ok (k +:+ ":" +:+ s)).
  assert (Hrun : forall keys, (forall s, o <> VStr s) -> Object_keys o = Ok keys ->
            objectToString o
            = (strs ← mapM render (merge_sort string_le keys);
               Ok (join separator strs))).
  { intros keys Hstr Hk. destruct o; try discriminate;
      try (unfold objectToString; rewrite Hk; reflexivity).
    exfalso. eapply Hstr. reflexivity. }
  assert (Hrender : forall k e, render k = Throw e ->
            e = TypeError /\ convertible (get o k) = false).
  { intros k e. unfold render.
    destruct (ToString (get o k)) as [s|e'] eqn:Hs; [discriminate|].
    intros [= <-]. apply (ToString_Throw _ _ Hs). }
  assert (Hstr : is_nullish o = false -> (exists s, o = VStr s)
                   \/ ((forall s, o <> VStr s) /\ exists keys, Object_keys o = Ok keys)).
  { destruct o; try discriminate; intros _;
      try (right; split; [discriminate|eexists; reflexivity]).
    left. eauto. }
  assert (Hthrow : forall e, objectToString o = Throw e ->
            e = TypeError
            /\ (is_nullish o = true
                \/ ((forall s, o <> VStr s)
                    /\ exists keys k, Object_keys o = Ok keys /\ In k keys
                                      /\ convertible (get o k) = false))).
  { intros e He. destruct (is_nullish o) eqn:Hn.
    - split; [|left; reflexivity].
      destruct o; try discriminate; injection He as <-; reflexivity.
    - destruct (Hstr eq_refl) as [[s ->]|[Hns [keys Hk]]]; [discriminate|].
      rewrite (Hrun keys Hns Hk) in He.
      destruct (mapM render (merge_sort string_le keys)) as [strs|e'] eqn:Hm;
        [discriminate|].
      injection He as <-.
      apply mapM_result_Throw in Hm as (k & Hin & Hk').
      destruct (Hrender k e' Hk') as [-> Hc]. split; [reflexivity|].
      right. split; [exact Hns|]. exists keys, k. split; [exact Hk|].
      split; [|exact Hc].
      apply list_elem_of_In. rewrite <- (merge_sort_Permutation string_le).
      apply list_elem_of_In, Hin. }
  split; [|split].
  - split.
    + intros [e He]. apply (Hthrow e He).
    + intros [Hn|(Hns & keys & k & Hk & Hin & Hc)].
      * exists TypeError. destruct o; try discriminate; reflexivity.
      * exists TypeError. rewrite (Hrun keys Hns Hk).
        rewrite (mapM_result_fails render); [reflexivity| |].
        -- intros k' e _ He. apply (Hrender k' e He).
        -- apply Exists_exists. exists k. split.
           ++ rewrite (merge_sort_Permutation string_le).
              apply list_elem_of_In, Hin.
           ++ exists TypeError. unfold render.
              destruct (ToString_convertible (get o k)) as [_ Hno].
              rewrite (Hno Hc). reflexivity.
  - intros e He. apply (Hthrow e He).
  - intros Hns Hk. rewrite (Hrun [] Hns Hk). reflexivity.
Qed.

(** X8: the result of [toTimestamp] is never a date, and converting it again
    changes nothing. *)
Theorem toTimestamp_idempotent (o : value) :
  toTimestamp (toTimestamp o) = toTimestamp o
  /\ forall tv, toTimestamp o <> VDate tv.
Proof.
  unfold toTimestamp.
  destruct o as [| |b|x|s|xs|ps|tv]; try (split; [reflexivity|discriminate]).
  cbn [is_now]. destruct (String.eqb s "now") eqn:Hs.
  - cbn [is_now]. rewrite Hs. split; [reflexivity|discriminate].
  - cbn [is_now]. rewrite Hs. split; [reflexivity|discriminate].
Qed.

End Edges.

(** X6, witness: one short string coordinate. *)
Lemma short_sequence_not_encoded_witness :
  latLngArrayToStringMaybeEncoded (VArr [VStr "1,2"]) = Ok (join separator ["1,2"]).
Proof.
  apply (proj1 short_sequence_not_encoded); [reflexivity|simpl; lia].
Defined.

(** X7, witness: an object whose one value has a [toString] of its own. *)
Lemma objectToString_throws_on_nullish_witness :
  exists e, objectToString (VObj [("a", VObj [("toString", VNum 5)])]) = Throw e.
Proof.
  apply (proj1 (objectToString_throws_on_nullish
                  (VObj [("a", VObj [("toString", VNum 5)])]))).
  right. split; [discriminate|].
  exists ["a"], "a". split; [reflexivity|]. split; [left|]; reflexivity.
Defined.

(** ** The secret and its alphabets *)

Lemma from_to_web_safe (s : string) : from_web_safe (to_web_safe s) = from_web_safe s.
Proof.
  unfold from_web_safe, to_web_safe. induction s as [|x s IH]; [reflexivity|].
  cbn [map_string]. rewrite IH. f_equal. cbv beta.
  destruct (Ascii.eqb_spec x "+") as [->|H1]; [reflexivity|].
  destruct (Ascii.eqb_spec x "/") as [->|H2]; reflexivity.
Qed.

Lemma from_web_safe_idempotent (s : string) :
  from_web_safe (from_web_safe s) = from_web_safe s.
Proof.
  unfold from_web_safe. induction s as [|x s IH]; [reflexivity|].
  cbn [map_string]. rewrite IH. f_equal. cbv beta.
  destruct (Ascii.eqb_spec x "-") as [->|H1]; [reflexivity|].
  destruct (Ascii.eqb_spec x "_") as [->|H2]; [reflexivity|].
  apply Ascii.eqb_neq in H1, H2. rewrite H1, H2. reflexivity.
Qed.

(** The decoding table reads both alphabets, so the translation does not
    change what is decoded. *)
Lemma b64_sextets_from_web_safe (s : string) :
  b64_sextets (from_web_safe s) = b64_sextets s.
Proof.
  unfold from_web_safe. induction s as [|x s IH]; [reflexivity|].
  cbn [map_string b64_sextets]. rewrite IH. cbv beta.
  destruct (Ascii.eqb_spec x "-") as [->|H1]; [reflexivity|].
  destruct (Ascii.eqb_spec x "_") as [->|H2]; reflexivity.
Qed.

Lemma sextets_of_group (n : Z) :
  0 <= n < 2 ^ 24 ->
  (0 <= sextet 3 n < 64) /\ (0 <= sextet 2 n < 64)
  /\ (0 <= sextet 1 n < 64) /\ (0 <= sextet 0 n < 64)
  /\ ((sextet 3 n * 64 + sextet 2 n) * 64 + sextet 1 n) * 64 + sextet 0 n = n.
Proof.
  intros Hn. unfold sextet. change 63 with (Z.ones 6).
  rewrite !Z.land_ones, !Z.shiftr_div_pow2 by lia.
  change (2 ^ 24) with 16777216 in Hn.
  change (2 ^ (6 * 3)) with 262144. change (2 ^ (6 * 2)) with 4096.
  change (2 ^ (6 * 1)) with 64. change (2 ^ (6 * 0)) with 1.
  change (2 ^ 6) with 64.
  repeat split; Z.div_mod_to_equations; lia.
Qed.

Lemma be_bytes_group (a b c : Z) :
  0 <= a < 256 -> 0 <= b < 256 -> 0 <= c < 256 ->
  be_bytes 3 (group24 a b c) = [a; b; c].
Proof.
  intros Ha Hb Hc. unfold be_bytes, group24. change 255 with (Z.ones 8).
  rewrite !Z.land_ones by lia.
  change (8 * Z.of_nat 2) with 16. change (8 * Z.of_nat 1) with 8.
  change (8 * Z.of_nat 0) with 0.
  rewrite !Z.shiftr_div_pow2 by lia.
  change (2 ^ 16) with 65536. change (2 ^ 8) with 256. change (2 ^ 0) with 1.
  repeat f_equal; Z.div_mod_to_equations; lia.
Qed.

Lemma group24_range (a b c : Z) :
  0 <= a < 256 -> 0 <= b < 256 -> 0 <= c < 256 -> 0 <= group24 a b c < 2 ^ 24.
Proof. unfold group24. change (2 ^ 24) with 16777216. lia. Qed.

(** The bytes that the decoder makes of the four sextets of a group. *)
Lemma decoded_group (a b c : Z) :
  0 <= a < 256 -> 0 <= b < 256 -> 0 <= c < 256 ->
  let n := group24 a b c in
  [Z.lor (Z.shiftl (sextet 3 n) 2) (Z.shiftr (sextet 2 n) 4);
   Z.lor (Z.shiftl (Z.land (sextet 2 n) 15) 4) (Z.shiftr (sextet 1 n) 2);
   Z.lor (Z.shiftl (Z.land (sextet 1 n) 3) 6) (sextet 0 n)] = [a; b; c].
Proof.
  intros Ha Hb Hc n.
  destruct (sextets_of_group n (group24_range a b c Ha Hb Hc))
    as (H3 & H2 & H1 & H0 & Hsum).
  rewrite <- (group_bytes _ _ _ _ H3 H2 H1 H0), Hsum.
  apply be_bytes_group; assumption.
Qed.

Lemma unbase64_b64_char (i : Z) :
  0 <= i < 64 ->
  unbase64 (b64_char i) = Some i /\ Ascii.eqb (b64_char i) "=" = false.
Proof.
  intros Hi. unfold b64_char.
  rewrite <- (Z2Nat.id i) at 2 by lia.
  assert (Hn : (Z.to_nat i < 64)%nat) by lia.
  revert Hn. generalize (Z.to_nat i) as n. intros n Hn.
  do 64 (destruct n as [|n]; [split; reflexivity|]). lia.
Qed.

Lemma b64_sextets_char (i : Z) (rest : string) :
  0 <= i < 64 ->
  b64_sextets (String (b64_char i) rest) = i :: b64_sextets rest.
Proof.
  intros Hi. destruct (unbase64_b64_char i Hi) as [Hu He].
  cbn [b64_sextets]. rewrite He, Hu. reflexivity.
Qed.

(** Decoding what was encoded gives the bytes back. *)
Lemma base64_decode_encode (bs : list Z) :
  Forall (fun b => 0 <= b < 256) bs -> base64_decode (base64_encode bs) = bs.
Proof.
  unfold base64_decode.
  induction bs as [|a|a b|a b c l IH] using list_ind3; intros Hbs.
  - reflexivity.
  - inversion Hbs as [|? ? Ha _]; subst.
    assert (H0 : 0 <= 0 < 256) by lia.
    pose proof (decoded_group a 0 0 Ha H0 H0) as Hd. cbv zeta in Hd.
    destruct (sextets_of_group _ (group24_range a 0 0 Ha H0 H0))
      as (H3 & H2 & _).
    cbn [base64_encode]. rewrite !b64_sextets_char by assumption.
    cbn [b64_sextets Ascii.eqb]. cbn [b64_bytes].
    injection Hd as Hd _ _. rewrite Hd. reflexivity.
  - inversion Hbs as [|? ? Ha Hbs']; subst.
    inversion Hbs' as [|? ? Hb _]; subst.
    assert (H0 : 0 <= 0 < 256) by lia.
    pose proof (decoded_group a b 0 Ha Hb H0) as Hd. cbv zeta in Hd.
    destruct (sextets_of_group _ (group24_range a b 0 Ha Hb H0))
      as (H3 & H2 & H1 & _).
    cbn [base64_encode]. rewrite !b64_sextets_char by assumption.
    cbn [b64_sextets Ascii.eqb]. cbn [b64_bytes].
    injection Hd as Hd1 Hd2 _. rewrite Hd1, Hd2. reflexivity.
  - inversion Hbs as [|? ? Ha Hbs']; subst.
    inversion Hbs' as [|? ? Hb Hbs'']; subst.
    inversion Hbs'' as [|? ? Hc Hl]; subst.
    pose proof (decoded_group a b c Ha Hb Hc) as Hd. cbv zeta in Hd.
    destruct (sextets_of_group _ (group24_range a b c Ha Hb Hc))
      as (H3 & H2 & H1 & H0 & _).
    cbn [base64_encode]. rewrite !b64_sextets_char by assumption.
    cbn [b64_bytes].
    injection Hd as Hd1 Hd2 Hd3. rewrite Hd1, Hd2, Hd3, (IH Hl). reflexivity.
Qed.

Section Secrets.
Context `{Platform}.

Lemma signature_key (u s s' : string) :
  base64_decode (from_web_safe s) = base64_decode (from_web_safe s') ->
  createPremiumPlanSignature u s = createPremiumPlanSignature u s'.
Proof.
  intros Hk. unfold createPremiumPlanSignature.
  destruct (URL_parse u); [|reflexivity].
  rewrite !replace_from_web_safe, Hk. reflexivity.
Qed.

(** X9: a secret signs the same in the standard and in the URL-safe
    alphabet. *)
Theorem signature_same_in_both_alphabets (u s : string) :
  createPremiumPlanSignature u (to_web_safe s) = createPremiumPlanSignature u s
  /\ createPremiumPlanSignature u (from_web_safe s) = createPremiumPlanSignature u s.
Proof.
  split; apply signature_key.
  - rewrite from_to_web_safe. reflexivity.
  - rewrite from_web_safe_idempotent. reflexivity.
Qed.

(** X10: signing with the base64 of a key, in either alphabet, is signing
    with that key. *)
Theorem signature_with_encoded_key (u : string) (url : URL) (key : list Z) :
  URL_parse u = Some url ->
  Forall (fun b => 0 <= b < 256) key ->
  createPremiumPlanSignature u (base64_encode key) = Ok (spec_signature key url)
  /\ createPremiumPlanSignature u (to_web_safe (base64_encode key))
     = Ok (spec_signature key url).
Proof.
  intros Hu Hkey.
  assert (Hstd : createPremiumPlanSignature u (base64_encode key)
                 = Ok (spec_signature key url)).
  { rewrite (signature_run u _ url Hu). unfold base64_decode.
    rewrite b64_sextets_from_web_safe.
    fold (base64_decode (base64_encode key)).
    rewrite (base64_decode_encode key Hkey). reflexivity. }
  split; [exact Hstd|].
  rewrite <- Hstd. apply signature_key. rewrite from_to_web_safe. reflexivity.
Qed.

End Secrets.

(** X10, witness: a key of three bytes. *)
Lemma signature_with_encoded_key_witness :
  createPremiumPlanSignature "https://test.url/maps/api/geocode/json?address=x"
    (base64_encode [251; 255; 190])
  = Ok (spec_signature [251; 255; 190]
          {| protocol := "https:"; host := "test.url";
             pathname := "/maps/api/geocode/json"; search := "?address=x";
             hash := "" |})
  /\ createPremiumPlanSignature "https://test.url/maps/api/geocode/json?address=x"
       (to_web_safe (base64_encode [251; 255; 190]))
     = Ok (spec_signature [251; 255; 190]
             {| protocol := "https:"; host := "test.url";
                pathname := "/maps/api/geocode/json"; search := "?address=x";
                hash := "" |}).
Proof.
  apply signature_with_encoded_key; [reflexivity|].
  repeat constructor; lia.
Defined.

(** ** Editing a property list *)

Lemma lookup_delete_prop_eq (k : string) (o : props) :
  lookup_prop k (delete_prop k o) = None.
Proof.
  induction o as [|[k0 v0] o IH]; simpl; [reflexivity|].
  destruct (String.eqb_spec k0 k) as [->|Hne]; simpl; [exact IH|].
  apply String.eqb_neq in Hne. rewrite Hne. exact IH.
Qed.

Lemma set_prop_keys (k : string) (v : value) (o : props) :
  map fst (set_prop k v o)
  = if has_prop k o then map fst o else map fst o ++ [k].
Proof.
  unfold has_prop. induction o as [|[k0 v0] o IH]; simpl; [reflexivity|].
  destruct (String.eqb_spec k0 k) as [->|Hne]; simpl; [reflexivity|].
  rewrite IH. destruct (lookup_prop k o); reflexivity.
Qed.

Lemma delete_prop_keys_filter (k : string) (o : props) :
  map fst (delete_prop k o) = filter (fun x => x <> k) (map fst o).
Proof.
  induction o as [|[k0 v0] o IH]; simpl; [reflexivity|].
  rewrite filter_cons. simpl.
  destruct (String.eqb_spec k0 k) as [->|Hne].
  - rewrite decide_False by (intros Hk; apply Hk; reflexivity). exact IH.
  - rewrite decide_True by assumption. simpl. rewrite IH. reflexivity.
Qed.

Lemma assign_lookup_ne (k k' : string) (v : value) (o o1 : props) :
  assign k v o = Ok o1 -> k <> k' -> lookup_prop k' o1 = lookup_prop k' o.
Proof.
  unfold assign. intros Ha Hne.
  destruct (has_prop k o);
    [injection Ha as <-; apply lookup_set_prop_ne, Hne|].
  destruct (String.eqb k "__proto__");
    [|injection Ha as <-; apply lookup_set_prop_ne, Hne].
  destruct (is_prototype v); [discriminate|]. injection Ha as <-. reflexivity.
Qed.

Lemma assign_lookup_eq (k : string) (v : value) (o o1 : props) :
  assign k v o = Ok o1 ->
  (has_prop k o = true \/ k <> "__proto__" -> lookup_prop k o1 = Some v)
  /\ (has_prop k o = false -> k = "__proto__" ->
      is_prototype v = false /\ lookup_prop k o1 = None).
Proof.
  unfold assign. intros Ha.
  destruct (has_prop k o) eqn:Hhas.
  - injection Ha as <-. split; [intros _; apply lookup_set_prop_eq|discriminate].
  - destruct (String.eqb_spec k "__proto__") as [->|Hne].
    + destruct (is_prototype v); [discriminate|]. injection Ha as <-. split.
      * intros [[=]|Hne]. congruence.
      * intros _ _. split; [reflexivity|].
        unfold has_prop in Hhas. destruct (lookup_prop "__proto__" o);
          [discriminate|reflexivity].
    + injection Ha as <-. split; [intros _; apply lookup_set_prop_eq|congruence].
Qed.

Lemma assign_same_lookup (k : string) (v : value) (o o' o1 : props) :
  lookup_prop k o = lookup_prop k o' -> assign k v o = Ok o1 ->
  exists o2, assign k v o' = Ok o2 /\ lookup_prop k o2 = lookup_prop k o1.
Proof.
  unfold assign, has_prop. intros Hsame. rewrite Hsame.
  destruct (lookup_prop k o') as [w|] eqn:Hw.
  - intros [= <-]. eexists. split; [reflexivity|].
    rewrite !lookup_set_prop_eq. reflexivity.
  - destruct (String.eqb k "__proto__").
    + destruct (is_prototype v); [discriminate|]. intros [= <-].
      eexists. split; [reflexivity|]. congruence.
    + intros [= <-]. eexists. split; [reflexivity|].
      rewrite !lookup_set_prop_eq. reflexivity.
Qed.

Lemma assign_keys (k : string) (v : value) (o o1 : props) :
  assign k v o = Ok o1 -> exists added, map fst o1 = map fst o ++ added.
Proof.
  unfold assign. intros Ha.
  assert (Hset : exists added, map fst (set_prop k v o) = map fst o ++ added).
  { rewrite set_prop_keys. destruct (has_prop k o); [exists []|exists [k]];
      [symmetry; apply app_nil_r|reflexivity]. }
  destruct (has_prop k o); [injection Ha as <-; exact Hset|].
  destruct (String.eqb k "__proto__"); [|injection Ha as <-; exact Hset].
  destruct (is_prototype v); [discriminate|]. injection Ha as <-.
  exists []. symmetry. apply app_nil_r.
Qed.

Lemma same_props_refl_perm (o o' : props) :
  NoDup (map fst o) -> o ≡ₚ o' -> same_props o o'.
Proof.
  intros Hnd Hp. split; [apply Permutation_map, Hp|].
  intros k. apply lookup_prop_perm; assumption.
Qed.

Lemma same_props_has (o o' : props) (k : string) :
  same_props o o' -> has_prop k o = has_prop k o'.
Proof. intros [_ Hl]. unfold has_prop. rewrite (Hl k). reflexivity. Qed.

Lemma same_props_set (o o' : props) (k : string) (v : value) :
  same_props o o' -> same_props (set_prop k v o) (set_prop k v o').
Proof.
  intros Hs. pose proof (same_props_has o o' k Hs) as Hh.
  destruct Hs as [Hk Hl]. split.
  - rewrite !set_prop_keys, <- Hh.
    destruct (has_prop k o); [exact Hk|]. rewrite Hk. reflexivity.
  - intros k'. destruct (String.eqb_spec k k') as [<-|Hne].
    + rewrite !lookup_set_prop_eq. reflexivity.
    + rewrite !lookup_set_prop_ne by assumption. apply Hl.
Qed.

Lemma same_props_delete (o o' : props) (k : string) :
  same_props o o' -> same_props (delete_prop k o) (delete_prop k o').
Proof.
  intros [Hk Hl]. split.
  - rewrite !delete_prop_keys_filter, Hk. reflexivity.
  - intros k'. destruct (String.eqb_spec k k') as [<-|Hne].
    + rewrite !lookup_delete_prop_eq. reflexivity.
    + rewrite !lookup_delete_prop_ne by assumption. apply Hl.
Qed.

Lemma same_props_fetch (o o' : props) (k : string) :
  same_props o o' -> fetch k o = fetch k o'.
Proof. intros [_ Hl]. unfold fetch. rewrite (Hl k). reflexivity. Qed.

Lemma same_props_assign (o o' : props) (k : string) (v : value) :
  same_props o o' ->
  match assign k v o, assign k v o' with
  | Ok a, Ok a' => same_props a a'
  | Throw e, Throw e' => e = e'
  | _, _ => False
  end.
Proof.
  intros Hs. unfold assign. rewrite <- (same_props_has o o' k Hs).
  destruct (has_prop k o); [apply same_props_set, Hs|].
  destruct (String.eqb k "__proto__"); [|apply same_props_set, Hs].
  destruct (is_prototype v); [reflexivity|exact Hs].
Qed.

Lemma reduce_throws {A B} (f : A -> B -> result A) (xs : list B) (acc : A) (e : exn) :
  (forall a x e', f a x = Throw e' -> e' = TypeError) ->
  reduce f xs acc = Throw e -> e = TypeError.
Proof.
  intros Hf. revert acc. induction xs as [|x xs IH]; intros acc; [discriminate|].
  cbn [reduce]. destruct (f acc x) as [acc'|e'] eqn:Hx; cbn [mbind result_bind].
  - apply IH.
  - intros [= <-]. apply (Hf acc x e' Hx).
Qed.

Section Tables.
Context `{Platform}.

Lemma qs_encode_throws (v : value) (e : exn) :
  qs_encode v = Throw e -> e = TypeError.
Proof.
  unfold qs_encode. destruct (ToString v) as [s|e'] eqn:Hs; [discriminate|].
  intros [= <-]. apply (ToString_Throw v e' Hs).
Qed.

Lemma qs_formatter_throws (options : qsOptions) (key : string)
    (acc : list string) (v : value) (e : exn) :
  qs_formatter options key acc v = Throw e -> e = TypeError.
Proof.
  unfold qs_formatter.
  destruct (arrayFormat options), v; try discriminate;
    match goal with
    | |- context [qs_encode ?v'] =>
        destruct (qs_encode v') as [s'|e'] eqn:He; cbn [mbind result_bind];
        [destruct acc; discriminate|intros [= <-]; apply (qs_encode_throws _ _ He)]
    end.
Qed.

Lemma qs_field_throws (options : qsOptions) (o : props) (key : string) (e : exn) :
  qs_field options o key = Throw e -> e = TypeError.
Proof.
  unfold qs_field.
  destruct (get (VObj o) key) as [| |b|x|s|xs|ps|tv]; try discriminate;
    try match goal with
    | |- context [qs_encode ?v'] =>
        destruct (qs_encode v') as [s'|e'] eqn:He; cbn [mbind result_bind];
        [discriminate|intros [= <-]; apply (qs_encode_throws _ _ He)]
    end.
  destruct (reduce (qs_formatter options key) xs []) as [parts|e'] eqn:Hr;
    cbn [mbind result_bind]; [discriminate|].
  intros [= <-]. eapply reduce_throws, Hr.
  intros a x e''. apply qs_formatter_throws.
Qed.

Lemma qs_throws (o : props) (options : qsOptions) (e : exn) :
  qs o options = Throw e -> e = TypeError.
Proof.
  unfold qs. destruct (negb _); [intros [= <-]; reflexivity|].
  destruct (mapM _ _) as [fields|e'] eqn:Hm; cbn [mbind result_bind];
    [discriminate|].
  intros [= <-]. apply mapM_result_Throw in Hm as (k & _ & Hk).
  apply (qs_field_throws _ _ _ _ Hk).
Qed.

Lemma same_props_get (o o' : props) (k : string) :
  same_props o o' -> get (VObj o) k = get (VObj o') k.
Proof. intros [_ Hl]. cbn [get]. rewrite (Hl k). reflexivity. Qed.

Lemma same_props_qs (o o' : props) (options : qsOptions) :
  sort options = true -> same_props o o' -> qs o options = qs o' options.
Proof.
  intros Hsort Hs. unfold qs. rewrite Hsort.
  destruct (negb _); [reflexivity|].
  assert (Hk : merge_sort string_le (map fst o) = merge_sort string_le (map fst o')).
  { apply (Sorted_unique string_le).
    - apply Sorted_merge_sort, _.
    - apply Sorted_merge_sort, _.
    - rewrite !merge_sort_Permutation. apply Hs. }
  rewrite Hk. f_equal. apply mapM_result_ext. intros k _. unfold qs_field.
  rewrite (same_props_get o o' k Hs). reflexivity.
Qed.

Lemma same_props_canonical (o o' : props) :
  same_props o o' -> same_props (canonical o) (canonical o').
Proof.
  intros Hs. unfold canonical.
  rewrite (same_props_get o o' "client_id" Hs).
  apply same_props_delete, same_props_delete, same_props_set, Hs.
Qed.

Lemma same_props_format (keys : list string) (format : serializerFormat)
    (o o' : props) :
  same_props o o' ->
  match apply_format keys format o, apply_format keys format o' with
  | Ok sp, Ok sp' => same_props sp sp'
  | Throw e, Throw e' => e = e'
  | _, _ => False
  end.
Proof.
  revert o o'. induction keys as [|key keys IH]; intros o o' Hs; [exact Hs|].
  cbn [apply_format]. unfold in_object. rewrite <- (same_props_has o o' key Hs).
  destruct (has_prop key o || inherited key); [|apply IH, Hs].
  destruct (format_lookup key format) as [f|]; [|reflexivity].
  rewrite <- (same_props_fetch o o' key Hs).
  destruct (f (fetch key o)) as [v|e]; [|reflexivity].
  cbn [mbind result_bind].
  pose proof (same_props_assign o o' key v Hs) as Ha.
  destruct (assign key v o) as [a|e], (assign key v o') as [a'|e'];
    try contradiction; cbn [mbind result_bind]; [apply IH, Ha|exact Ha].
Qed.

Lemma same_props_outcome (format : serializerFormat) (baseUrl : string)
    (options : qsOptions) (o o' : props) :
  sort options = true -> same_props o o' ->
  outcome format baseUrl options o = outcome format baseUrl options o'.
Proof.
  intros Hsort Hs. unfold outcome.
  pose proof (same_props_format (map fst format) format o o' Hs) as Hf.
  destruct (apply_format (map fst format) format o) as [sp|e],
           (apply_format (map fst format) format o') as [sp'|e'];
    try contradiction; [|rewrite Hf; reflexivity].
  cbn [mbind result_bind].
  rewrite <- (same_props_has sp sp' "client_id" Hf),
          <- (same_props_has sp sp' "client_secret" Hf).
  destruct (has_prop "client_id" sp && has_prop "client_secret" sp).
  - unfold premium_outcome.
    rewrite (same_props_qs _ _ options Hsort (same_props_canonical sp sp' Hf)).
    rewrite (same_props_get sp sp' "client_secret" Hf). reflexivity.
  - apply same_props_qs; assumption.
Qed.

(** X11: with options that leave the sorting of the keys on, as the default
    options do, the string that a call returns, the signature included, does
    not depend on the order in which the caller's object lists its fields. *)
Theorem serializer_order_independent
    (format : serializerFormat) (baseUrl : string) (options : qsOptions)
    (params params' : loc) (h h' : gmap loc props) (p p' : props) :
  sort options = true ->
  h !! params = Some p -> h' !! params' = Some p' ->
  NoDup (map fst p) -> p ≡ₚ p' ->
  fst (serializer format baseUrl options params h)
  = fst (serializer format baseUrl options params' h').
Proof.
  intros Hsort Hp Hp' Hnd Hperm.
  rewrite (serializer_run format baseUrl options params p h Hp).
  rewrite (serializer_run format baseUrl options params' p' h' Hp').
  apply same_props_outcome; [exact Hsort|].
  apply same_props_refl_perm; assumption.
Qed.

Lemma format_lookup_None (k : string) (format : serializerFormat) :
  format_lookup k format = None <-> ~ In k (map fst format).
Proof.
  induction format as [|[k0 f0] format IH]; simpl; [tauto|].
  destruct (String.eqb_spec k0 k) as [->|Hne]; [split; [discriminate|tauto]|].
  rewrite IH. tauto.
Qed.

Lemma apply_format_keys (keys : list string) (format : serializerFormat)
    (p sp : props) :
  apply_format keys format p = Ok sp ->
  (exists added, map fst sp = map fst p ++ added)
  /\ forall k, ~ In k keys -> lookup_prop k sp = lookup_prop k p.
Proof.
  revert p. induction keys as [|key keys IH]; intros p.
  - intros [= <-]. split; [exists []; symmetry; apply app_nil_r|auto].
  - cbn [apply_format]. destruct (in_object key p).
    + destruct (format_lookup key format) as [f|]; [|discriminate].
      destruct (f (fetch key p)) as [v|e]; [|discriminate].
      cbn [mbind result_bind].
      destruct (assign key v p) as [p1|e] eqn:Ha; [|discriminate].
      cbn [mbind result_bind]. intros Hsp.
      destruct (IH _ Hsp) as [[added Hk] Hl]. split.
      * destruct (assign_keys _ _ _ _ Ha) as [added1 Hk1].
        exists (added1 ++ added). rewrite Hk, Hk1. symmetry. apply app_assoc.
      * intros k Hnot. rewrite Hl by (simpl in Hnot; tauto).
        apply (assign_lookup_ne _ _ _ _ _ Ha). simpl in Hnot. tauto.
    + intros Hsp. destruct (IH _ Hsp) as [Hk Hl]. split; [exact Hk|].
      intros k Hnot. apply Hl. simpl in Hnot. tauto.
Qed.

(** What the loop makes of one listed key, the keys of the table being
    distinct. *)
Lemma apply_format_listed (keys : list string) (format : serializerFormat)
    (p : props) (k : string) (f : serializerFunction) :
  NoDup keys -> In k keys -> format_lookup k format = Some f ->
  (forall sp, apply_format keys format p = Ok sp ->
     if in_object k p then
       exists v p1, f (fetch k p) = Ok v /\ assign k v p = Ok p1
                    /\ lookup_prop k sp = lookup_prop k p1
     else lookup_prop k sp = lookup_prop k p)
  /\ (forall e, in_object k p = true -> f (fetch k p) = Throw e ->
      exists e', apply_format keys format p = Throw e').
Proof.
  intros Hnd Hin Hf. revert p. induction keys as [|key keys IH]; [destruct Hin|].
  intros p. apply NoDup_cons in Hnd as [Hkey Hnd].
  cbn [apply_format].
  destruct (String.eqb_spec key k) as [->|Hne].
  - (* the key itself *)
    rewrite Hf. destruct (in_object k p) eqn:Hk.
    + destruct (f (fetch k p)) as [v|e0] eqn:Hfv; cbn [mbind result_bind].
      * split; [|discriminate]. intros sp.
        destruct (assign k v p) as [p1|e1] eqn:Ha; cbn [mbind result_bind];
          [|discriminate].
        intros Hsp. exists v, p1. split; [reflexivity|]. split; [exact Ha|].
        destruct (apply_format_keys _ _ _ _ Hsp) as [_ Hl].
        apply Hl. rewrite <- list_elem_of_In. exact Hkey.
      * split; [discriminate|]. intros e _ _. eauto.
    + split; [|discriminate]. intros sp Hsp.
      destruct (apply_format_keys _ _ _ _ Hsp) as [_ Hl].
      apply Hl. rewrite <- list_elem_of_In. exact Hkey.
  - destruct Hin as [Heq|Hin]; [congruence|].
    assert (Hstep : forall p0,
              lookup_prop k p0 = lookup_prop k p ->
              (forall sp, apply_format keys format p0 = Ok sp ->
                 if in_object k p then
                   exists v p1, f (fetch k p) = Ok v /\ assign k v p = Ok p1
                                /\ lookup_prop k sp = lookup_prop k p1
                 else lookup_prop k sp = lookup_prop k p)
              /\ (forall e, in_object k p = true -> f (fetch k p) = Throw e ->
                  exists e', apply_format keys format p0 = Throw e')).
    { intros p0 Hsame. destruct (IH Hnd Hin p0) as [IH1 IH2].
      assert (Hin0 : in_object k p0 = in_object k p)
        by (unfold in_object, has_prop; rewrite Hsame; reflexivity).
      assert (Hfetch : fetch k p0 = fetch k p)
        by (unfold fetch; rewrite Hsame; reflexivity).
      rewrite Hin0, Hfetch in *. split; [|exact IH2].
      intros sp Hsp. specialize (IH1 sp Hsp).
      destruct (in_object k p); [|congruence].
      destruct IH1 as (v & p1 & Hv & Ha & Hl).
      destruct (assign_same_lookup k v p0 p p1 Hsame Ha) as (p2 & Ha' & Hl').
      exists v, p2. split; [exact Hv|]. split; [exact Ha'|]. congruence. }
    destruct (in_object key p); [|apply Hstep; reflexivity].
    destruct (format_lookup key format) as [g|];
      [|split; [discriminate|eauto]].
    destruct (g (fetch key p)) as [w|e0]; cbn [mbind result_bind];
      [|split; [discriminate|eauto]].
    destruct (assign key w p) as [p1|e1] eqn:Ha; cbn [mbind result_bind];
      [|split; [discriminate|eauto]].
    apply Hstep. apply (assign_lookup_ne _ _ _ _ _ Ha Hne).
Qed.

(** X12: a table with distinct keys changes the fields it lists, each to what
    its function makes of what the caller's object has, or inherits, under
    that key, and nothing else.  The own keys keep their order and new keys
    follow them; an unlisted field keeps its value; a listed key that the
    object neither has nor inherits is not added; an inherited method is
    shadowed by the result, while a primitive result for the inherited
    ["__proto__"] is dropped.  When no prototype is replaced, a function that
    throws on its field makes the call throw. *)
Theorem table_applies_to_listed_fields
    (format : serializerFormat) (baseUrl : string) (options : qsOptions)
    (params : loc) (h : gmap loc props) (p : props) :
  NoDup (map fst format) -> h !! params = Some p ->
  (forall sp, apply_format (map fst format) format p = Ok sp ->
     (exists added, map fst sp = map fst p ++ added)
     /\ (forall k, format_lookup k format = None ->
         lookup_prop k sp = lookup_prop k p)
     /\ (forall k f, format_lookup k format = Some f -> in_object k p = false ->
         lookup_prop k sp = None)
     /\ (forall k f, format_lookup k format = Some f -> in_object k p = true ->
         exists v,
           f (fetch k p) = Ok v
           /\ (has_prop k p = true \/ k <> "__proto__" ->
               lookup_prop k sp = Some v)
           /\ (has_prop k p = false -> k = "__proto__" ->
               is_prototype v = false /\ lookup_prop k sp = None))
     /\ (has_prop "client_id" sp && has_prop "client_secret" sp = false ->
         fst (serializer format baseUrl options params h) = qs sp options))
  /\ (forall k f e,
      ~ In "__proto__" (map fst format) \/ has_prop "__proto__" p = true ->
      format_lookup k format = Some f -> in_object k p = true ->
      f (fetch k p) = Throw e ->
      exists e', fst (serializer format baseUrl options params h) = Throw e').
Proof.
  intros Hnd Hp.
  assert (Hin : forall k f, format_lookup k format = Some f ->
                            In k (map fst format)).
  { intros k f Hf. destruct (in_dec string_dec k (map fst format)) as [|Hn];
      [assumption|]. apply format_lookup_None in Hn. congruence. }
  split.
  - intros sp Hsp. destruct (apply_format_keys _ _ _ _ Hsp) as [Hk Hl].
    split; [exact Hk|]. split; [|split; [|split]].
    + intros k Hnone. apply Hl, format_lookup_None, Hnone.
    + intros k f Hf Hno.
      destruct (apply_format_listed (map fst format) format p k f
                  Hnd (Hin k f Hf) Hf) as [Hok _].
      specialize (Hok sp Hsp). rewrite Hno in Hok. rewrite Hok.
      unfold in_object in Hno. apply orb_false_iff in Hno as [Hno _].
      unfold has_prop in Hno. destruct (lookup_prop k p); [discriminate|reflexivity].
    + intros k f Hf Hyes.
      destruct (apply_format_listed (map fst format) format p k f
                  Hnd (Hin k f Hf) Hf) as [Hok _].
      specialize (Hok sp Hsp). rewrite Hyes in Hok.
      destruct Hok as (v & p1 & Hv & Ha & Hsame). exists v.
      split; [exact Hv|]. rewrite Hsame. apply (assign_lookup_eq _ _ _ _ Ha).
    + intros Hno. rewrite (serializer_run _ _ _ _ p h Hp).
      unfold outcome. rewrite Hsp. cbn [mbind result_bind]. rewrite Hno.
      reflexivity.
  - intros k f e _ Hf Hyes He.
    destruct (apply_format_listed (map fst format) format p k f
                Hnd (Hin k f Hf) Hf) as [_ Hthrow].
    destruct (Hthrow e Hyes He) as [e' He'].
    exists e'. rewrite (serializer_run _ _ _ _ p h Hp). unfold outcome.
    rewrite He'. reflexivity.
Qed.

(** X13: [createPremiumPlanQueryString] edits the object it is given: after
    the call, also after one that throws, the object has a [client] field
    with the former value of [client_id], has no [client_id] and no
    [client_secret], and is unchanged at every other key; no other object is
    touched. *)
Theorem premium_edits_its_argument
    (l : loc) (options : qsOptions) (baseUrl : string)
    (sp : props) (h : gmap loc props) :
  h !! l = Some sp ->
  let h' := snd (createPremiumPlanQueryString l options baseUrl h) in
  exists sp',
    h' !! l = Some sp'
    /\ lookup_prop "client" sp' = Some (get (VObj sp) "client_id")
    /\ lookup_prop "client_id" sp' = None
    /\ lookup_prop "client_secret" sp' = None
    /\ (forall k, k <> "client" -> k <> "client_id" -> k <> "client_secret" ->
        lookup_prop k sp' = lookup_prop k sp)
    /\ (forall l', l' <> l -> h' !! l' = h !! l').
Proof.
  intros Hl h'. exists (canonical sp).
  split; [|split; [|split; [|split; [|split]]]].
  - subst h'. unfold createPremiumPlanQueryString, canonical.
    rewrite bind_run. unfold read at 1. rewrite Hl.
    rewrite bind_run. unfold write at 1.
    rewrite bind_run. unfold read at 1. rewrite lookup_insert_eq.
    rewrite bind_run. unfold write at 1.
    rewrite bind_run. unfold read at 1. rewrite lookup_insert_eq.
    rewrite bind_run. unfold write at 1.
    rewrite bind_run. unfold read at 1. rewrite lookup_insert_eq.
    rewrite bind_run. unfold lift at 1.
    destruct (qs _ options) as [q|e]; [|apply lookup_insert_eq].
    rewrite bind_run. unfold lift at 1.
    destruct (match get _ "client_secret" with VStr s => _ | _ => _ end);
      apply lookup_insert_eq.
  - apply canonical_client.
  - unfold canonical. rewrite lookup_delete_prop_ne by discriminate.
    apply lookup_delete_prop_eq.
  - unfold canonical. apply lookup_delete_prop_eq.
  - intros k H1 H2 H3. unfold canonical.
    rewrite !lookup_delete_prop_ne, lookup_set_prop_ne by congruence.
    reflexivity.
  - intros l' Hne. apply createPremiumPlanQueryString_writes_only, Hne.
Qed.

(** X14: unless both [client_id] and [client_secret] are present nothing is
    renamed, removed or signed: the result is the plain query string, in which
    every field with a scalar value appears under its own name, a lone
    [client_secret] included. *)
Theorem credentials_sent_as_given
    (format : serializerFormat) (baseUrl : string) (params : loc)
    (h : gmap loc props) (p sp : props) (q : string) :
  h !! params = Some p ->
  apply_format (map fst format) format p = Ok sp ->
  has_prop "client_id" sp && has_prop "client_secret" sp = false ->
  qs sp default_options = Ok q ->
  fst (serializer format baseUrl default_options params h) = Ok q
  /\ (forall k v, lookup_prop k sp = Some v -> scalar v = true ->
      exists s, ToString v = Ok s
                /\ In (strictUriEncode k, Some (strictUriEncode s)) (query_fields q))
  /\ (forall s, lookup_prop "client_secret" sp = Some (VStr s) ->
      In ("client_secret", Some (strictUriEncode s)) (query_fields q)).
Proof.
  intros Hp Hsp Hno Hq. split; [|split].
  - rewrite (serializer_run _ _ _ _ p h Hp). unfold outcome.
    rewrite Hsp. cbn [mbind result_bind]. rewrite Hno. exact Hq.
  - intros k v Hv Hs. apply (query_field_of_scalar sp q k v Hq Hv Hs).
  - intros s Hs.
    destruct (query_field_of_scalar sp q "client_secret" (VStr s) Hq Hs eq_refl)
      as (s' & [= <-] & Hin).
    exact Hin.
Qed.

End Tables.

(** X11, witness: the same premium-plan request with its fields listed in
    two orders. *)
Lemma serializer_order_independent_witness :
  fst (serializer [] "https://maps.googleapis.com/maps/api/geocode/json"
         default_options 1%positive
         {[ 1%positive := [("client_secret", VStr "testClientSecret");
                           ("address", VStr "123 Main St");
                           ("client_id", VStr "clientID")] ]})
  = fst (serializer [] "https://maps.googleapis.com/maps/api/geocode/json"
           default_options 2%positive
           {[ 2%positive := [("address", VStr "123 Main St");
                             ("client_secret", VStr "testClientSecret");
                             ("client_id", VStr "clientID")] ]}).
Proof.
  apply (serializer_order_independent []
           "https://maps.googleapis.com/maps/api/geocode/json" default_options
           1%positive 2%positive _ _
           [("client_secret", VStr "testClientSecret");
            ("address", VStr "123 Main St"); ("client_id", VStr "clientID")]
           [("address", VStr "123 Main St");
            ("client_secret", VStr "testClientSecret");
            ("client_id", VStr "clientID")]).
  - reflexivity.
  - reflexivity.
  - reflexivity.
  - apply (bool_decide_unpack _). vm_compute. reflexivity.
  - apply perm_swap.
Defined.

(** X12, witness: a table that serializes [location] and answers the
    inherited [constructor], applied to a request with a radius. *)
Lemma table_applies_to_listed_fields_witness :
  lookup_prop "radius"
    [("location", VStr "1,2"); ("radius", VNum 5); ("constructor", VStr "x")]
  = lookup_prop "radius" [("location", VArr [VNum 1; VNum 2]); ("radius", VNum 5)]
  /\ (exists v,
        Ok (VStr "x") = Ok v
        /\ lookup_prop "constructor"
             [("location", VStr "1,2"); ("radius", VNum 5);
              ("constructor", VStr "x")] = Some v)
  /\ fst (serializer
            [("location",
              fun a => match a with
                       | Own v => s ← latLngToString v; Ok (VStr s)
                       | Inherited _ => Throw TypeError
                       end);
             ("constructor", fun _ => Ok (VStr "x"))]
            "https://maps.googleapis.com/maps/api/geocode/json"
            default_options 1%positive
            {[ 1%positive := [("location", VArr [VNum 1; VNum 2]);
                              ("radius", VNum 5)] ]})
     = qs [("location", VStr "1,2"); ("radius", VNum 5); ("constructor", VStr "x")]
          default_options.
Proof.
  destruct (table_applies_to_listed_fields
              [("location",
                fun a => match a with
                         | Own v => s ← latLngToString v; Ok (VStr s)
                         | Inherited _ => Throw TypeError
                         end);
               ("constructor", fun _ => Ok (VStr "x"))]
              "https://maps.googleapis.com/maps/api/geocode/json"
              default_options 1%positive
              {[ 1%positive := [("location", VArr [VNum 1; VNum 2]);
                                ("radius", VNum 5)] ]}
              [("location", VArr [VNum 1; VNum 2]); ("radius", VNum 5)])
    as [Hok _].
  - apply (bool_decide_unpack _). vm_compute. reflexivity.
  - reflexivity.
  - destruct (Hok [("location", VStr "1,2"); ("radius", VNum 5);
                   ("constructor", VStr "x")])
      as (_ & Hother & _ & Hlisted & Hplain); [vm_compute; reflexivity|].
    split; [apply (Hother "radius"); reflexivity|]. split.
    + destruct (Hlisted "constructor" (fun _ => Ok (VStr "x")) eq_refl eq_refl)
        as (v & Hv & Hnew & _).
      exists v. split; [exact Hv|]. apply Hnew. right. discriminate.
    + apply Hplain. reflexivity.
Defined.

(** The string of the witness: the inherited key is on the wire. *)
Example table_adds_inherited_key :
  fst (serializer [("constructor", fun _ => Ok (VStr "x"))]
         "https://maps.googleapis.com/maps/api/geocode/json"
         default_options 1%positive {[ 1%positive := [("a", VNum 1)] ]})
  = Ok "a=1&constructor=x".
Proof. vm_compute. reflexivity. Qed.

(** X13, witness: the object of the geocoding request after the call. *)
Lemma premium_edits_its_argument_witness :
  exists sp',
    snd (createPremiumPlanQueryString 1%positive default_options
           "https://maps.googleapis.com/maps/api/geocode/json"
           {[ 1%positive := [("address", VStr "123 Main St");
                             ("client_id", VStr "clientID");
                             ("client_secret", VStr "testClientSecret")] ]})
      !! 1%positive = Some sp'
    /\ lookup_prop "client" sp' = Some (VStr "clientID")
    /\ lookup_prop "client_id" sp' = None
    /\ lookup_prop "client_secret" sp' = None
    /\ lookup_prop "address" sp' = Some (VStr "123 Main St").
Proof.
  destruct (premium_edits_its_argument 1%positive default_options
              "https://maps.googleapis.com/maps/api/geocode/json"
              [("address", VStr "123 Main St"); ("client_id", VStr "clientID");
               ("client_secret", VStr "testClientSecret")]
              {[ 1%positive := [("address", VStr "123 Main St");
                                ("client_id", VStr "clientID");
                                ("client_secret", VStr "testClientSecret")] ]})
    as (sp' & Hat & Hclient & Hid & Hsecret & Hother & _); [reflexivity|].
  exists sp'. split; [exact Hat|]. split; [exact Hclient|].
  split; [exact Hid|]. split; [exact Hsecret|].
  apply (Hother "address"); discriminate.
Defined.

(** X14, witness: a request that carries a secret and no identifier. *)
Lemma credentials_sent_as_given_witness :
  fst (serializer [] "https://maps.googleapis.com/maps/api/geocode/json"
         default_options 1%positive
         {[ 1%positive := [("address", VStr "x");
                           ("client_secret", VStr "s3")] ]})
  = Ok "address=x&client_secret=s3"
  /\ In ("client_secret", Some (strictUriEncode "s3"))
       (query_fields "address=x&client_secret=s3").
Proof.
  destruct (credentials_sent_as_given []
              "https://maps.googleapis.com/maps/api/geocode/json" 1%positive
              {[ 1%positive := [("address", VStr "x");
                                ("client_secret", VStr "s3")] ]}
              [("address", VStr "x"); ("client_secret", VStr "s3")]
              [("address", VStr "x"); ("client_secret", VStr "s3")]
              "address=x&client_secret=s3")
    as (Hout & _ & Hsecret); [reflexivity..|].
  split; [exact Hout|]. apply Hsecret. reflexivity.
Defined.

Section Credentials.
Context `{Platform}.

(** X15: on the premium-plan path a secret that is not a string makes the
    call throw: nothing is signed with a number, a list or a missing value. *)
Theorem non_string_secret_throws
    (format : serializerFormat) (baseUrl : string) (options : qsOptions)
    (params : loc) (h : gmap loc props) (p sp : props) (v : value) :
  h !! params = Some p ->
  apply_format (map fst format) format p = Ok sp ->
  has_prop "client_id" sp = true ->
  lookup_prop "client_secret" sp = Some v ->
  (forall s, v <> VStr s) ->
  fst (serializer format baseUrl options params h) = Throw TypeError.
Proof.
  intros Hp Hsp Hid Hv Hns.
  rewrite (serializer_run _ _ _ _ p h Hp). unfold outcome.
  rewrite Hsp. cbn [mbind result_bind]. unfold has_prop at 2.
  rewrite Hid, Hv. cbn [andb]. unfold premium_outcome.
  destruct (qs (canonical sp) options) as [q|e] eqn:Hq;
    [|rewrite (qs_throws _ _ _ Hq); reflexivity].
  cbn [mbind result_bind get]. rewrite Hv. cbn [default id].
  destruct v; try reflexivity. exfalso. eapply Hns. reflexivity.
Qed.

(** X16: the base URL is used for the signature and for nothing else.
    Without both credentials the result is the same for every base URL; with
    both, a base URL that does not parse makes the call throw. *)
Theorem base_url_only_signed
    (format : serializerFormat) (options : qsOptions)
    (params : loc) (h : gmap loc props) (p sp : props) :
  h !! params = Some p ->
  apply_format (map fst format) format p = Ok sp ->
  (has_prop "client_id" sp && has_prop "client_secret" sp = false ->
   forall baseUrl baseUrl',
     fst (serializer format baseUrl options params h)
     = fst (serializer format baseUrl' options params h))
  /\ (has_prop "client_id" sp && has_prop "client_secret" sp = true ->
      forall baseUrl q,
        qs (canonical sp) options = Ok q ->
        URL_parse (baseUrl +:+ "?" +:+ q) = None ->
        fst (serializer format baseUrl options params h) = Throw TypeError).
Proof.
  intros Hp Hsp. split.
  - intros Hno baseUrl baseUrl'.
    rewrite !(serializer_run _ _ _ _ p h Hp). unfold outcome.
    rewrite Hsp. cbn [mbind result_bind]. rewrite Hno. reflexivity.
  - intros Hboth baseUrl q Hq Hurl.
    rewrite (serializer_run _ _ _ _ p h Hp). unfold outcome.
    rewrite Hsp. cbn [mbind result_bind]. rewrite Hboth.
    unfold premium_outcome. rewrite Hq. cbn [mbind result_bind].
    destruct (get (VObj sp) "client_secret"); try reflexivity.
    unfold createPremiumPlanSignature. rewrite Hurl. reflexivity.
Qed.

End Credentials.

(** X15, witness: a number as secret. *)
Lemma non_string_secret_throws_witness :
  fst (serializer [] "https://maps.googleapis.com/maps/api/geocode/json"
         default_options 1%positive
         {[ 1%positive := [("address", VStr "x"); ("client_id", VStr "clientID");
                           ("client_secret", VNum 42)] ]})
  = Throw TypeError.
Proof.
  apply (non_string_secret_throws []
           "https://maps.googleapis.com/maps/api/geocode/json" default_options
           1%positive _
           [("address", VStr "x"); ("client_id", VStr "clientID");
            ("client_secret", VNum 42)]
           [("address", VStr "x"); ("client_id", VStr "clientID");
            ("client_secret", VNum 42)]
           (VNum 42)); try reflexivity.
  intros s. discriminate.
Defined.

(** X16, witness: a plain request under two base URLs, and a premium-plan
    request under a base URL without scheme. *)
Lemma base_url_only_signed_witness :
  fst (serializer [] "https://maps.googleapis.com/maps/api/geocode/json"
         default_options 1%positive
         {[ 1%positive := [("address", VStr "x")] ]})
  = fst (serializer [] "maps/api/geocode/json"
           default_options 1%positive
           {[ 1%positive := [("address", VStr "x")] ]})
  /\ fst (serializer [] "maps/api/geocode/json"
            default_options 1%positive
            {[ 1%positive := [("address", VStr "x");
                              ("client_id", VStr "clientID");
                              ("client_secret", VStr "testClientSecret")] ]})
     = Throw TypeError.
Proof.
  split.
  - destruct (base_url_only_signed [] default_options 1%positive
                {[ 1%positive := [("address", VStr "x")] ]}
                [("address", VStr "x")] [("address", VStr "x")])
      as [Hplain _]; [reflexivity..|].
    apply Hplain. reflexivity.
  - destruct (base_url_only_signed [] default_options 1%positive
                {[ 1%positive := [("address", VStr "x");
                                  ("client_id", VStr "clientID");
                                  ("client_secret", VStr "testClientSecret")] ]}
                [("address", VStr "x"); ("client_id", VStr "clientID");
                 ("client_secret", VStr "testClientSecret")]
                [("address", VStr "x"); ("client_id", VStr "clientID");
                 ("client_secret", VStr "testClientSecret")])
      as [_ Hpremium]; [reflexivity..|].
    apply (Hpremium eq_refl "maps/api/geocode/json" "address=x&client=clientID");
      reflexivity.
Defined.
